(** * Broadcast Incremental Power (BIP): a shallow embedding of [src/main.cpp]

    The program reads node coordinates from a file, then grows a broadcast
    tree greedily: each round of the [while] loop prices every (covered
    node, uncovered node) pair, takes the cheapest one, and moves the
    uncovered node of that pair to the covered side.

    The embedding follows [main] statement by statement.

    - [std::vector] is [list]; [push_back] appends, [erase] removes by
      position, [v[i]] is [nth_error], with [None] for a read past the end.
      The [int] counters are unbounded.
    - The C++ [double] is kept abstract behind the class [Double].  What
      does not depend on laws of arithmetic is proved once, for every
      interpretation of the operations.  Two interpretations are given:
      exact rationals ([Q]), used where a proof needs an ordered field, and
      IEEE binary64 (Rocq's primitive floats, round to nearest even), used
      to replay concrete runs bit for bit.  [pow (d, 2)] is [d * d]; in
      the binary64 runs below every square on which the outcome depends is
      exactly representable or overflows to infinity, so that only [+],
      [-] and [<] round or compare.  What is proved of every binary64 round
      rests on the order of [<] alone and holds for every way of computing
      the other operations.
    - [main] returns what the program did to the outside world (the file it
      opened, what it sent to [std::cout]) and how it ended.  The [while]
      loop takes a bound on its iterations; termination is proved, not
      assumed.
    - [std::stod] and the file system are parameters of [main]. *)

From Stdlib Require Import String Ascii.
From Stdlib Require Import List Bool Arith ZArith QArith Qabs Lia Lqa Permutation.
From Stdlib Require Import Floats.
Import ListNotations.
Open Scope string_scope.
Open Scope list_scope.
Open Scope nat_scope.

Set Implicit Arguments.

(** ** The numeric interface used by [main] *)

Class Double (num : Type) := {
  d_zero : num;                      (* the literal [0] *)
  d_add : num -> num -> num;         (* [+], [+=] *)
  d_sub : num -> num -> num;         (* [-] *)
  d_sqr : num -> num;                (* [pow (., 2)] *)
  d_abs : num -> num;                (* [std::abs] *)
  d_ltb : num -> num -> bool;        (* [<] *)
  d_epsilon : num                    (* the default argument [0.0001] *)
}.

(** Exact rationals. *)
Definition Qltb (x y : Q) : bool := negb (Qle_bool y x).

#[export] Instance Double_Q : Double Q := {|
  d_zero := 0%Q;
  d_add := Qplus;
  d_sub := Qminus;
  d_sqr := fun d => Qmult d d;
  d_abs := Qabs;
  d_ltb := Qltb;
  d_epsilon := (1 # 10000)%Q
|}.

(** IEEE 754 binary64, round to nearest even.  The literal [0.0001] denotes
    the nearest binary64 value, as it does in C++. *)
#[local] Set Warnings "-inexact-float".
#[export] Instance Double_F64 : Double float := {|
  d_zero := 0%float;
  d_add := PrimFloat.add;
  d_sub := PrimFloat.sub;
  d_sqr := fun d => PrimFloat.mul d d;
  d_abs := PrimFloat.abs;
  d_ltb := PrimFloat.ltb;
  d_epsilon := 0.0001%float
|}.
#[local] Set Warnings "inexact-float".

(** ** Data *)

Section Data.
Variable num : Type.

(** A row [{x, y}] of [locations], [uncovered] or [nontransmitting]. *)
Definition Point : Type := (num * num)%type.

(** A row [{x, y, power}] of [transmitting] or [transmissionPath]. *)
Record TxRow : Type := mkTx { tx_x : num; tx_y : num; tx_power : num }.

(** A row [{minPower, xSource, ySource, xUncovered, yUncovered}] of
    [minPowersForAllNodes]. *)
Record Cand : Type := mkCand {
  c_cost : num; c_x1 : num; c_y1 : num; c_x2 : num; c_y2 : num }.

(** What the program does to the outside world, in order. *)
Inductive Event : Type :=
| EvOpen (path : string)           (* [std::ifstream file (argv[1])] *)
| EvStr (s : string)               (* [std::cout << "..."] *)
| EvNum (x : num)                  (* [std::cout << double] *)
| EvInt (z : Z)                    (* [std::cout << int] *)
| EvEndl.                          (* [std::cout << std::endl] *)

(** The variables of [main] that the loop reads and writes. *)
Record State : Type := mkState {
  transmitting : list TxRow;
  nontransmitting : list Point;
  uncovered : list Point;
  transmissionPath : list TxRow;
  round : Z;
  stdout : list Event
}.

Definition tx_point (t : TxRow) : Point := (tx_x t, tx_y t).
Definition c_source (c : Cand) : Point := (c_x1 c, c_y1 c).
Definition c_target (c : Cand) : Point := (c_x2 c, c_y2 c).
End Data.

Arguments mkTx {num}.
Arguments mkCand {num}.
Arguments EvOpen {num}.
Arguments EvStr {num}.
Arguments EvNum {num}.
Arguments EvInt {num}.
Arguments EvEndl {num}.
Arguments mkState {num}.

(** [v.push_back (x)] *)
Definition push_back {A} (v : list A) (x : A) : list A := v ++ [x].

(** [v.erase (v.begin () + i)] *)
Definition erase_at {A} (i : nat) (v : list A) : list A :=
  firstn i v ++ skipn (S i) v.

(** ** The loop body *)

Section Bip.
Context {num : Type} `{Double num}.

Definition doubleEquals (x1 x2 : num) : bool :=
  d_ltb (d_abs (d_sub x1 x2)) d_epsilon.

(** The test repeated at lines 147, 156 and 170: both coordinates of a
    stored row against the coordinates taken from the winning candidate. *)
Definition same_node (p q : Point num) : bool :=
  doubleEquals (fst p) (fst q) && doubleEquals (snd p) (snd q).

(** [pow (x1 - x2, 2) + pow (y1 - y2, 2)] *)
Definition powerToReach (x1 y1 x2 y2 : num) : num :=
  d_add (d_sqr (d_sub x1 x2)) (d_sqr (d_sub y1 y2)).

(** Lines 99-114: every transmitting node against every uncovered node. *)
Definition check_transmitting (tx : list (TxRow num)) (unc : list (Point num))
    (minPowers : list (Cand num)) : list (Cand num) :=
  fold_left (fun acc t =>
    let x1 := tx_x t in
    let y1 := tx_y t in
    let currentPower := tx_power t in
    fold_left (fun acc u =>
      let x2 := fst u in
      let y2 := snd u in
      let powerToReachUncoveredNode := powerToReach x1 y1 x2 y2 in
      let additionalPower := d_sub powerToReachUncoveredNode currentPower in
      push_back acc (mkCand additionalPower x1 y1 x2 y2)) unc acc) tx minPowers.

(** Lines 118-127: every covered non-transmitting node against every
    uncovered node. *)
Definition check_nontransmitting (ntx : list (Point num)) (unc : list (Point num))
    (minPowers : list (Cand num)) : list (Cand num) :=
  fold_left (fun acc r =>
    let x1 := fst r in
    let y1 := snd r in
    fold_left (fun acc u =>
      let x2 := fst u in
      let y2 := snd u in
      let powerToReachUncoveredNode := powerToReach x1 y1 x2 y2 in
      push_back acc (mkCand powerToReachUncoveredNode x1 y1 x2 y2)) unc acc) ntx minPowers.

Definition minPowersForAllNodes (st : State num) : list (Cand num) :=
  check_nontransmitting (nontransmitting st) (uncovered st)
    (check_transmitting (transmitting st) (uncovered st) []).

(** [std::min_element]: keep the position of the smallest element seen so
    far and replace it only by a strictly smaller one. *)
Fixpoint min_element_from (smallest : nat) (vsmallest : num) (i : nat)
    (l : list num) : nat :=
  match l with
  | [] => smallest
  | x :: l' =>
      if d_ltb x vsmallest then min_element_from i x (S i) l'
      else min_element_from smallest vsmallest (S i) l'
  end.

(** [std::distance (begin, std::min_element (begin, end))]; on an empty
    range [min_element] returns [end], at distance 0. *)
Definition min_element_index (l : list num) : nat :=
  match l with
  | [] => 0
  | x :: l' => min_element_from 0 x 1 l'
  end.

(** Lines 131-136. *)
Definition indexMin (minPowers : list (Cand num)) : nat :=
  let temp := fold_left (fun temp c => push_back temp (c_cost c)) minPowers [] in
  min_element_index temp.

(** Lines 146-151: add the winning cost to every transmitting row whose
    coordinates pass the tolerance test. *)
Definition update_transmitting (sel : Cand num) (tx : list (TxRow num))
    : list (TxRow num) :=
  map (fun t =>
    if same_node (tx_point t) (c_source sel)
    then mkTx (tx_x t) (tx_y t) (d_add (tx_power t) (c_cost sel))
    else t) tx.

(** Lines 155-162.  The loop erases inside the vector it is walking and
    still increments [i], so the element that slides into position [i] is
    not examined.  [fuel] bounds the number of iterations; the vector's
    length is always enough. *)
Fixpoint promote_loop (fuel i : nat) (sel : Cand num)
    (ntx : list (Point num)) (tx : list (TxRow num))
    : list (Point num) * list (TxRow num) :=
  match fuel with
  | O => (ntx, tx)
  | S fuel' =>
      match nth_error ntx i with
      | None => (ntx, tx)
      | Some r =>
          if same_node r (c_source sel)
          then promote_loop fuel' (S i) sel (erase_at i ntx)
                 (push_back tx (mkTx (c_x1 sel) (c_y1 sel) (c_cost sel)))
          else promote_loop fuel' (S i) sel ntx tx
      end
  end.

Definition promote (sel : Cand num) (ntx : list (Point num))
    (tx : list (TxRow num)) : list (Point num) * list (TxRow num) :=
  promote_loop (length ntx) 0 sel ntx tx.

(** Lines 169-173, with the same erase-while-walking shape. *)
Fixpoint remove_loop (fuel i : nat) (sel : Cand num) (unc : list (Point num))
    : list (Point num) :=
  match fuel with
  | O => unc
  | S fuel' =>
      match nth_error unc i with
      | None => unc
      | Some u =>
          if same_node u (c_target sel)
          then remove_loop fuel' (S i) sel (erase_at i unc)
          else remove_loop fuel' (S i) sel unc
      end
  end.

Definition remove_covered (sel : Cand num) (unc : list (Point num))
    : list (Point num) :=
  remove_loop (length unc) 0 sel unc.

(** Lines 178-187: the progress report of one round. *)
Definition report_round (rnd : Z) (tx : list (TxRow num))
    (unc : list (Point num)) : list (Event num) :=
  [EvStr "At the end of round "; EvInt rnd; EvStr ":"; EvEndl]
  ++ flat_map (fun t =>
       [EvStr "Transmitting node: "; EvStr "Node ("; EvNum (tx_x t); EvStr ",";
        EvNum (tx_y t); EvStr ")"; EvStr ", with a power of: ";
        EvNum (tx_power t); EvEndl]) tx
  ++ flat_map (fun u =>
       [EvStr "Uncovered node: "; EvNum (fst u); EvStr ", "; EvNum (snd u);
        EvEndl]) unc.

(** One pass through the body of the [while] loop (lines 78-187).  [None]
    stands for the out-of-range read [minPowersForAllNodes[indexMin]]. *)
Definition bip_round (st : State num) : option (State num) :=
  let round' := (round st + 1)%Z in
  let minPowers := minPowersForAllNodes st in
  match nth_error minPowers (indexMin minPowers) with
  | None => None
  | Some sel =>
      let path' := push_back (transmissionPath st)
                     (mkTx (c_x1 sel) (c_y1 sel) (c_cost sel)) in
      let tx1 := update_transmitting sel (transmitting st) in
      let '(ntx1, tx2) := promote sel (nontransmitting st) tx1 in
      let ntx2 := push_back ntx1 (c_x2 sel, c_y2 sel) in
      let unc' := remove_covered sel (uncovered st) in
      Some (mkState tx2 ntx2 unc' path' round'
              (stdout st ++ report_round round' tx2 unc'))
  end.

End Bip.

(** ** Seeding, the [while] loop and the final report *)

(** How a run of [main] ends. *)
Inductive Outcome : Type :=
| Exit (code : Z)        (* [return code] *)
| OutOfRange             (* a [vector::operator[]] read past the end: undefined *)
| Uncaught               (* an exception from [std::stod] leaves [main] *)
| OutOfFuel.             (* the loop was still running when the fuel ran out *)

Section Run.
Context {num : Type} `{Double num}.

(** Lines 68-74.  [locations[0]] is read without a size check: [None] is
    that read on an empty vector. *)
Definition bip_init (locations : list (Point num)) : option (State num) :=
  match nth_error locations 0 with
  | None => None
  | Some src =>
      let transmitting0 := push_back [] (mkTx (fst src) (snd src) d_zero) in
      let uncovered0 :=
        fold_left (fun unc i =>
          match nth_error locations i with
          | Some p => push_back unc (fst p, snd p)
          | None => unc
          end) (seq 1 (length locations - 1)) [] in
      Some (mkState transmitting0 [] uncovered0 [] 0%Z [])
  end.

(** [while (uncovered.size () > 0) { ... }] with a bound on the number of
    iterations: [inl] is the state on leaving the loop, [inr] what has been
    printed when the run stops inside it, and why it stops. *)
Fixpoint bip_loop (fuel : nat) (st : State num)
    : State num + list (Event num) * Outcome :=
  match uncovered st with
  | [] => inl st
  | _ :: _ =>
      match fuel with
      | O => inr (stdout st, OutOfFuel)
      | S fuel' =>
          match bip_round st with
          | None => inr (stdout st, OutOfRange)
          | Some st' => bip_loop fuel' st'
          end
      end
  end.

(** Lines 195-201. *)
Definition totalBroadcastCost (tx : list (TxRow num)) : num :=
  fold_left (fun total t => d_add total (tx_power t)) tx d_zero.

(** Lines 192-211. *)
Definition report_final (st : State num) : list (Event num) :=
  [EvStr "======================== Final Results ========================";
   EvEndl; EvStr "Transmitting nodes (at the end): "; EvEndl]
  ++ flat_map (fun t =>
       [EvStr "Node ("; EvNum (tx_x t); EvStr ", "; EvNum (tx_y t); EvStr ")";
        EvStr ", transmitting with a power of: "; EvNum (tx_power t); EvEndl])
       (transmitting st)
  ++ [EvStr "Transmission path: "; EvEndl]
  ++ flat_map (fun it =>
       [EvStr "Stage"; EvInt (Z.of_nat (fst it) + 1); EvStr ": Node "; EvStr "(";
        EvNum (tx_x (snd it)); EvStr ", "; EvNum (tx_y (snd it)); EvStr ")";
        EvStr ", increases its power by: "; EvNum (tx_power (snd it)); EvEndl])
       (combine (seq 0 (length (transmissionPath st))) (transmissionPath st))
  ++ [EvStr "Total transmission cost is: ";
      EvNum (totalBroadcastCost (transmitting st)); EvEndl].

(** The builder on a vector of locations that is already in memory. *)
Definition bip (fuel : nat) (locations : list (Point num))
    : State num + list (Event num) * Outcome :=
  match bip_init locations with
  | None => inr ([], OutOfRange)
  | Some st0 => bip_loop fuel st0
  end.

(** The states the loop passes through: the seeded state, and the state
    at the end of every round entered with a non-empty [uncovered]. *)
Inductive reachable (locations : list (Point num)) : State num -> Prop :=
| reach_init st :
    bip_init locations = Some st -> reachable locations st
| reach_round st st' :
    reachable locations st -> uncovered st <> [] ->
    bip_round st = Some st' -> reachable locations st'.

(** The state after exactly [k] rounds, when the loop gets that far. *)
Fixpoint rounds_from (k : nat) (st : State num) : option (State num) :=
  match k with
  | O => Some st
  | S k' =>
      match uncovered st with
      | [] => None
      | _ :: _ =>
          match bip_round st with
          | None => None
          | Some st' => rounds_from k' st'
          end
      end
  end.

Definition state_after (k : nat) (locations : list (Point num))
    : option (State num) :=
  match bip_init locations with
  | None => None
  | Some st0 => rounds_from k st0
  end.

End Run.

(** ** The loader and [main] *)

Section Main.
Context {num : Type} `{Double num}.

(** [std::stod]: [None] when it throws. *)
Variable stod : string -> option num.

(** [s.find (",")]: [None] is [npos]. *)
Fixpoint find_comma (s : string) : option nat :=
  match s with
  | EmptyString => None
  | String c s' =>
      if Ascii.eqb c ","%char then Some 0
      else option_map S (find_comma s')
  end.

(** [s.substr (pos, count)]; [count = None] is [npos], and a count that
    reaches past the end is cut there.  Never called here with
    [pos > s.size ()], the case in which [substr] throws. *)
Definition substr (pos : nat) (count : option nat) (s : string) : string :=
  match count with
  | None => substring pos (String.length s - pos) s
  | Some n => substring pos (Nat.min n (String.length s - pos)) s
  end.

(** Lines 51-56 on one non-empty line.  [line.size () - 2] is unsigned: on
    a one-character line it wraps around to a count larger than any
    string.  [line.find (",") + 1] wraps [npos] around to 0. *)
Definition parse_line (line : string) : option (Point num) :=
  let count := if String.length line <? 2 then None
               else Some (String.length line - 2) in
  let line := substr 1 count line in
  let comma := find_comma line in
  match stod (substr 0 comma line) with
  | None => None
  | Some i =>
      let after := match comma with None => 0 | Some k => k + 1 end in
      match stod (substr after None line) with
      | None => None
      | Some j => Some (i, j)
      end
  end.

(** Lines 48-58: [inr] when a [stod] throws. *)
Fixpoint read_lines (lines : list string) (locations : list (Point num))
    : list (Point num) + Outcome :=
  match lines with
  | [] => inl locations
  | line :: rest =>
      if (String.length line =? 0) then read_lines rest locations
      else match parse_line line with
           | None => inr Uncaught
           | Some p => read_lines rest (push_back locations p)
           end
  end.

(** Lines 47-61.  [file = None] is a stream that failed to open: the [if]
    is skipped and [locations] stays empty. *)
Definition load (file : option (list string)) : list (Point num) + Outcome :=
  match file with
  | None => inl []
  | Some lines => read_lines lines []
  end.

(** [main]: [argv] holds [argc] strings, [fs] says what each path opens
    to.  The result is everything the program did, then how it ended. *)
Definition main (fuel : nat) (fs : string -> option (list string))
    (argv : list string) : list (Event num) * Outcome :=
  let argc := Z.of_nat (length argv) in
  if negb (argc =? 2)%Z then
    ([EvStr "Run the command: ./a.out locations.txt"; EvEndl], Exit (-1))
  else
    let path := nth 1 argv "" in
    let opened := [EvOpen path] in
    match load (fs path) with
    | inr o => (opened, o)
    | inl locations =>
        match bip_init locations with
        | None => (opened, OutOfRange)
        | Some st0 =>
            match bip_loop fuel st0 with
            | inr (printed, o) => (opened ++ printed, o)
            | inl st => (opened ++ stdout st ++ report_final st, Exit 0)
            end
        end
    end.

End Main.

(** * Vocabulary of the proofs *)

(** ** Loops that erase while walking *)

Section EraseWhileWalking.
Variable A : Type.
Variable f : A -> bool.

(** What a loop of the shape
    [for (i = 0; i < v.size (); ++i) if (f (v[i])) v.erase (v.begin () + i);]
    leaves in [v]: after an erasure the next element is stepped over. *)
Fixpoint erase_skip (l : list A) : list A :=
  match l with
  | [] => []
  | x :: r =>
      if f x then
        match r with
        | [] => []
        | y :: r' => y :: erase_skip r'
        end
      else x :: erase_skip r
  end.

(** How many elements that loop erases. *)
Fixpoint erase_count (l : list A) : nat :=
  match l with
  | [] => 0
  | x :: r =>
      if f x then
        match r with
        | [] => 1
        | y :: r' => S (erase_count r')
        end
      else erase_count r
  end.

End EraseWhileWalking.

(** ** Candidates, separated inputs, invariants and the claims' predicates *)

Section Vocabulary.
Context {num : Type} `{Double num}.

(** The candidate priced for growing the power of transmitting row [t]
    until it reaches [u]. *)
Definition cand_tx (t : TxRow num) (u : Point num) : Cand num :=
  mkCand (d_sub (powerToReach (tx_x t) (tx_y t) (fst u) (snd u)) (tx_power t))
         (tx_x t) (tx_y t) (fst u) (snd u).

(** The candidate priced for switching on relay [r] to reach [u]. *)
Definition cand_relay (r u : Point num) : Cand num :=
  mkCand (powerToReach (fst r) (snd r) (fst u) (snd u))
         (fst r) (snd r) (fst u) (snd u).

(** The two pools in the order in which the loops enumerate them. *)
Definition tx_pool (st : State num) : list (Cand num) :=
  flat_map (fun t => map (cand_tx t) (uncovered st)) (transmitting st).

Definition relay_pool (st : State num) : list (Cand num) :=
  flat_map (fun r => map (cand_relay r) (uncovered st)) (nontransmitting st).

(** The row pushed for the winning candidate, both on [transmissionPath]
    and, when a relay is promoted, on [transmitting]. *)
Definition sel_row (sel : Cand num) : TxRow num :=
  mkTx (c_x1 sel) (c_y1 sel) (c_cost sel).

(** The tests of lines 156 and 170, as predicates on a stored row. *)
Definition from_source (sel : Cand num) (p : Point num) : bool :=
  same_node p (c_source sel).

Definition from_target (sel : Cand num) (p : Point num) : bool :=
  same_node p (c_target sel).

(** The row [minPowersForAllNodes[indexMin]] of a round. *)
Definition selected (st : State num) : option (Cand num) :=
  nth_error (minPowersForAllNodes st) (indexMin (minPowersForAllNodes st)).

(** The covered and uncovered nodes of a state, as one list. *)
Definition all_points (st : State num) : list (Point num) :=
  map (@tx_point num) (transmitting st) ++ nontransmitting st ++ uncovered st.

(** Every node passes the tolerance test against itself, and no two nodes
    at different positions pass it against each other, in either order. *)
Fixpoint separatedb (l : list (Point num)) : bool :=
  match l with
  | [] => true
  | p :: r =>
      same_node p p
      && forallb (fun q => negb (same_node p q) && negb (same_node q p)) r
      && separatedb r
  end.

(** The same, as a property of the members of the vector. *)
Definition separated (l : list (Point num)) : Prop :=
  NoDup l
  /\ (forall p, In p l -> same_node p p = true)
  /\ (forall p q, In p l -> In q l -> same_node p q = true -> p = q).

(** What every state of a run on a separated input satisfies. *)
Record Inv (locations : list (Point num)) (st : State num) : Prop := {
  inv_perm : Permutation (all_points st) locations;
  inv_tx : transmitting st <> [];
  inv_rnd : round st = Z.of_nat (length (transmissionPath st));
  inv_cnt :
    length (transmissionPath st) + length (uncovered st) + 1 = length locations
}.

(** What every state of a run satisfies when the uncovered nodes pass the
    tolerance test against themselves: [bound] limits the rounds played
    plus the rounds still to play. *)
Record Progressing (bound : nat) (st : State num) : Prop := {
  pr_tx : transmitting st <> [];
  pr_self : forall u, In u (uncovered st) -> same_node u u = true;
  pr_rnd : round st = Z.of_nat (length (transmissionPath st));
  pr_cnt : length (transmissionPath st) + length (uncovered st) <= bound
}.

(** The loop ends after exactly [N - 1] rounds with [N - 1] path entries. *)
Definition runs_exactly (locations : list (Point num)) : Prop :=
  exists fuel st,
    bip fuel locations = inl st
    /\ round st = (Z.of_nat (length locations) - 1)%Z
    /\ length (transmissionPath st) = length locations - 1.

(** The three vectors are pairwise disjoint and together hold exactly the
    input nodes. *)
Definition partitioned (locations : list (Point num)) (st : State num) : Prop :=
  (forall p, In p locations <->
             In p (map (@tx_point num) (transmitting st))
             \/ In p (nontransmitting st) \/ In p (uncovered st))
  /\ (forall p, In p (map (@tx_point num) (transmitting st)) ->
                ~ In p (nontransmitting st))
  /\ (forall p, In p (map (@tx_point num) (transmitting st)) ->
                ~ In p (uncovered st))
  /\ (forall p, In p (nontransmitting st) -> ~ In p (uncovered st)).

(** The power increments of the path log, added up in log order. *)
Definition sum_of_increments (path : list (TxRow num)) : num :=
  fold_left (fun s e => d_add s (tx_power e)) path d_zero.

End Vocabulary.

(** ** Exact arithmetic *)

(** The squared distance, spelled out over [Q]. *)
Definition dist2 (x1 y1 x2 y2 : Q) : Q :=
  ((x1 - x2) * (x1 - x2) + (y1 - y2) * (y1 - y2))%Q.

(** Every transmitting row has paid for no more than the distance to the
    nearest node that is still uncovered. *)
Definition paid (st : State Q) : Prop :=
  forall t, In t (transmitting st) ->
    (0 <= tx_power t)%Q
    /\ forall u, In u (uncovered st) ->
         (tx_power t <= dist2 (tx_x t) (tx_y t) (fst u) (snd u))%Q.

(** ** A reader of numbers for runs from a file *)

(** A stand-in for [std::stod] on the literals used below: an optional
    sign and a run of decimal digits; like [stod] it stops at the first
    character that does not fit and fails when there is no digit. *)
Definition is_digit (c : ascii) : bool :=
  (48 <=? nat_of_ascii c) && (nat_of_ascii c <=? 57).

Fixpoint digits (s : string) (acc : Z) (seen : bool) : option Z :=
  match s with
  | EmptyString => if seen then Some acc else None
  | String c s' =>
      if is_digit c
      then digits s' (10 * acc + Z.of_nat (nat_of_ascii c - 48))%Z true
      else if seen then Some acc else None
  end.

Definition stod_integer (s : string) : option Q :=
  match s with
  | String c s' =>
      if Ascii.eqb c "-"%char
      then option_map (fun z => inject_Z (- z)) (digits s' 0%Z false)
      else if Ascii.eqb c "+"%char
      then option_map inject_Z (digits s' 0%Z false)
      else option_map inject_Z (digits s 0%Z false)
  | EmptyString => None
  end.

Definition one_file (content : list string) (path : string)
    : option (list string) :=
  if String.eqb path "locations.txt" then Some content else None.

(** ** Concrete inputs *)

(** Three nodes on a line, one unit apart. *)
Definition line3 {num} (of_Z : Z -> num) : list (Point num) :=
  [(of_Z 0, of_Z 0); (of_Z 1, of_Z 0); (of_Z 2, of_Z 0)]%Z.

(** [(0,0), (1,0), (5,0), (1.00006103515625,0)]: the last node lies
    [2^-14 < 0.0001] to the right of the second one. *)
Definition twin_far : list (Point float) :=
  [(0, 0); (1, 0); (5, 0); (1.00006103515625, 0)]%float.

(** [(0,0), (1.00006103515625,0), (1,0)]: the nearer twin is stored right
    after the farther one. *)
Definition twin_adjacent : list (Point float) :=
  [(0, 0); (1.00006103515625, 0); (1, 0)]%float.

(** [(0,0), (0.00006103515625,0), (1,0)]: the source and its neighbour,
    [2^-14] apart, and a third node. *)
Definition twin_source : list (Point float) :=
  [(0, 0); (0.00006103515625, 0); (1, 0)]%float.

(** [(0,0), (2,0), (7,0), (2,0.00006103515625)]: the last node lies
    [2^-14 < 0.0001] above the second one, with one node stored between
    them. *)
Definition twin_above : list (Point float) :=
  [(0, 0); (2, 0); (7, 0); (2, 0.00006103515625)]%float.

(** [(0,0), (23171,134217726), (232471928,3), (-232471928,3)]: integer
    coordinates whose squares are exact in binary64, while the sums of two
    squares are not.  The last two nodes are at the same distance from the
    source; every candidate that starts from a relay costs more than 7e16
    and is never near the minimum. *)
Definition equidistant_far : list (Point float) :=
  [(0, 0); (23171, 134217726); (232471928, 3); (-232471928, 3)]%float.

(** Separated integer coordinates whose squared differences are all exact
    in binary64 while their sums are not. *)
Definition far_apart : list (Point float) :=
  [(0, 0); (40000000, -89999998); (19999999, -30000002); (70000002, 80000002)]%float.

(** ** Lines, vectors and reports *)

(** The test [!line.empty ()] of line 49. *)
Definition nonempty_line (line : string) : bool :=
  negb (String.length line =? 0).

(** A line made of a first character, some text and a last character. *)
Definition enclose (c1 : ascii) (inner : string) (c2 : ascii) : string :=
  String c1 (String.append inner (String c2 EmptyString)).

(** No two neighbouring rows both pass the test [f]. *)
Fixpoint no_adjacentb {A} (f : A -> bool) (l : list A) : bool :=
  match l with
  | [] => true
  | x :: r =>
      match r with
      | [] => true
      | y :: _ => negb (f x && f y) && no_adjacentb f r
      end
  end.

(** The number of [std::endl] sent to [std::cout]. *)
Definition lines_printed {num} (evs : list (Event num)) : nat :=
  length (filter (fun e => match e with EvEndl => true | _ => false end) evs).

(** The candidate "the source (0,0) reaches (1,0) at cost 1". *)
Definition reach_1_0 : Cand Q := (mkCand 1 0 0 1 0)%Q.

(** The state seeded from three nodes on a line. *)
Definition line3_seeded : State Q :=
  mkState [mkTx 0 0 0]%Q [] [(1, 0); (2, 0)]%Q [] 0%Z [].

(** ** Costs in binary64 *)

(** A value of the IEEE 754 specification other than NaN. *)
Definition sf_number (f : spec_float) : bool :=
  match f with
  | S754_nan => false
  | _ => true
  end.

(** Case analysis on the signs, exponents and mantissas that a
    comparison of the specification inspects. *)
Ltac sf_cases :=
  repeat match goal with
  | b : bool |- _ => destruct b
  | |- context [Z.compare ?x ?y] => destruct (Z.compare_spec x y); try subst
  | H : context [Z.compare ?x ?y] |- _ =>
      destruct (Z.compare_spec x y); try subst
  | |- context [Pos.compare_cont Eq ?x ?y] =>
      change (Pos.compare_cont Eq x y) with (Pos.compare x y);
      destruct (Pos.compare_spec x y); try subst
  | H : context [Pos.compare_cont Eq ?x ?y] |- _ =>
      change (Pos.compare_cont Eq x y) with (Pos.compare x y) in H;
      destruct (Pos.compare_spec x y); try subst
  end; simpl in *; try congruence; try lia.

(** A candidate whose cost is a number: [cost == cost], which is false of
    NaN only. *)
Definition cost_is_number (c : Cand float) : bool :=
  negb (PrimFloat.is_nan (c_cost c)).

(** [(0,0), (2^600,0), (2^600,1)]: finite coordinates, one unit or more
    apart, whose squares are beyond the largest binary64 value. *)
Definition overflowing : list (Point float) :=
  [(0, 0); (0x1p+600, 0); (0x1p+600, 1)]%float.

(** * Properties *)

(** ** Vectors: [push_back], [erase] and the loops that erase while walking *)

(** Induction that steps over one or two elements, the way those loops do. *)
Lemma list_skip_ind {A} (P : list A -> Prop) :
  P [] -> (forall x, P [x]) ->
  (forall x y r, P r -> P (y :: r) -> P (x :: y :: r)) ->
  forall l, P l.
Proof.
  intros H0 H1 H2 l.
  assert (HH : P l /\ forall x, P (x :: l)); [|apply HH].
  induction l as [|a l [IH1 IH2]]; split; auto.
Qed.

Section ListLoops.
Variable A : Type.
Variable f : A -> bool.

Lemma erase_skip_cons2 x y r :
  erase_skip f (x :: y :: r) =
  if f x then y :: erase_skip f r else x :: erase_skip f (y :: r).
Proof. reflexivity. Qed.

Lemma erase_count_cons2 x y r :
  erase_count f (x :: y :: r) =
  if f x then S (erase_count f r) else erase_count f (y :: r).
Proof. reflexivity. Qed.

Lemma erase_skip_length l : length (erase_skip f l) + erase_count f l = length l.
Proof.
  induction l as [|x|x y r IH1 IH2] using list_skip_ind.
  - reflexivity.
  - simpl. destruct (f x); reflexivity.
  - rewrite erase_skip_cons2, erase_count_cons2. destruct (f x).
    + cbn [length]. lia.
    + cbn [length] in *. lia.
Qed.

Lemma erase_skip_incl l x : In x (erase_skip f l) -> In x l.
Proof.
  induction l as [|a|a b r IH1 IH2] using list_skip_ind.
  - simpl; auto.
  - simpl. destruct (f a); simpl; auto.
  - rewrite erase_skip_cons2. destruct (f a).
    + intros [E|E]; [subst; simpl; auto|]. right; right. auto.
    + intros [E|E]; [subst; simpl; auto|]. right. auto.
Qed.

(** The first element that passes the test is always erased. *)
Lemma erase_count_pos l x : In x l -> f x = true -> 0 < erase_count f l.
Proof.
  induction l as [|a r IH]; simpl; [tauto|].
  intros [E|E] Hx.
  - subst a. rewrite Hx. destruct r; lia.
  - destruct (f a); [destruct r; lia | auto].
Qed.

Lemma erase_skip_none l :
  (forall x, In x l -> f x = false) -> erase_skip f l = l /\ erase_count f l = 0.
Proof.
  induction l as [|a r IH]; simpl; intros Hl; [auto|].
  rewrite (Hl a) by auto.
  destruct IH as [E1 E2]; [intros; apply Hl; auto|].
  rewrite E1, E2. auto.
Qed.

Lemma erase_skip_one l1 x l2 :
  (forall y, In y l1 -> f y = false) -> f x = true ->
  (forall y, In y l2 -> f y = false) ->
  erase_skip f (l1 ++ x :: l2) = l1 ++ l2 /\ erase_count f (l1 ++ x :: l2) = 1.
Proof.
  intros H1 Hx H2.
  induction l1 as [|a r IH]; simpl.
  - rewrite Hx. destruct l2 as [|y r']; [auto|].
    destruct (erase_skip_none r') as [E1 E2]; [intros; apply H2; simpl; auto|].
    rewrite E1, E2. auto.
  - rewrite (H1 a) by (simpl; auto).
    destruct IH as [E1 E2]; [intros; apply H1; simpl; auto|].
    rewrite E1, E2. auto.
Qed.

End ListLoops.

Lemma erase_at_nth {A} (v : list A) i x :
  nth_error v i = Some x ->
  v = firstn i v ++ x :: skipn (S i) v /\ length (firstn i v) = i.
Proof.
  revert i; induction v as [|a v IH]; intros [|i]; simpl; try discriminate.
  - intros [= ->]. auto.
  - intros Hn. destruct (IH _ Hn) as [E L].
    split; [f_equal; exact E | f_equal; exact L].
Qed.

Lemma erase_at_app {A} (l1 : list A) x l2 :
  erase_at (length l1) (l1 ++ x :: l2) = l1 ++ l2.
Proof.
  unfold erase_at. induction l1 as [|a l1 IH]; simpl.
  - reflexivity.
  - f_equal. exact IH.
Qed.

(** ** The loops of one round, in closed form *)

Section Loops.
Context {num : Type} `{Double num}.

Lemma push_all {A B} (g : A -> B) (l : list A) (acc : list B) :
  fold_left (fun acc a => push_back acc (g a)) l acc = acc ++ map g l.
Proof.
  revert acc; induction l as [|a l IH]; intros acc; simpl.
  - now rewrite app_nil_r.
  - rewrite IH. unfold push_back. now rewrite <- app_assoc.
Qed.

Lemma check_transmitting_eq tx unc acc :
  check_transmitting tx unc acc = acc ++ flat_map (fun t => map (cand_tx t) unc) tx.
Proof.
  unfold check_transmitting.
  revert acc; induction tx as [|t tx IH]; intros acc; simpl.
  - now rewrite app_nil_r.
  - rewrite IH, app_assoc. f_equal. exact (push_all (cand_tx t) unc acc).
Qed.

Lemma check_nontransmitting_eq ntx unc acc :
  check_nontransmitting ntx unc acc
  = acc ++ flat_map (fun r => map (cand_relay r) unc) ntx.
Proof.
  unfold check_nontransmitting.
  revert acc; induction ntx as [|r ntx IH]; intros acc; simpl.
  - now rewrite app_nil_r.
  - rewrite IH, app_assoc. f_equal. exact (push_all (cand_relay r) unc acc).
Qed.

(** Transmitting candidates come first, then relay candidates; inside a
    pool the origin varies slowest. *)
Lemma minPowersForAllNodes_eq st :
  minPowersForAllNodes st = tx_pool st ++ relay_pool st.
Proof.
  unfold minPowersForAllNodes.
  now rewrite check_nontransmitting_eq, check_transmitting_eq.
Qed.

Lemma indexMin_eq minPowers :
  indexMin minPowers = min_element_index (map (@c_cost num) minPowers).
Proof. unfold indexMin. now rewrite push_all. Qed.

Lemma min_element_from_range l s v i :
  let k := min_element_from s v i l in k = s \/ (i <= k < i + length l).
Proof.
  revert s v i; induction l as [|x l IH]; intros s v i; simpl; auto.
  destruct (d_ltb x v).
  - destruct (IH i x (S i)) as [E|E]; right; lia.
  - destruct (IH s v (S i)) as [E|E]; [left; exact E | right; lia].
Qed.

Lemma min_element_index_lt l : l <> [] -> min_element_index l < length l.
Proof.
  destruct l as [|x l]; [congruence|]. intros _. simpl.
  destruct (min_element_from_range l 0 x 1) as [E|E]; lia.
Qed.

(** On a non-empty candidate vector the selected row exists. *)
Lemma selected_exists (cs : list (Cand num)) :
  cs <> [] -> exists sel, nth_error cs (indexMin cs) = Some sel.
Proof.
  intros Hne.
  destruct (nth_error cs (indexMin cs)) eqn:E; [eauto|].
  apply nth_error_None in E. rewrite indexMin_eq in E.
  assert (map (@c_cost num) cs <> []) by (destruct cs; simpl; congruence).
  pose proof (min_element_index_lt H0) as L. rewrite length_map in L. lia.
Qed.

Lemma remove_loop_eq sel fuel : forall l1 l2,
  length l2 <= fuel ->
  remove_loop fuel (length l1) sel (l1 ++ l2)
  = l1 ++ erase_skip (fun u => same_node u (c_target sel)) l2.
Proof.
  induction fuel as [|fuel IH]; intros l1 l2 L.
  - destruct l2; [|simpl in L; lia]. reflexivity.
  - cbn [remove_loop].
    destruct l2 as [|u r].
    + rewrite app_nil_r.
      assert (E : nth_error l1 (length l1) = None) by (apply nth_error_None; lia).
      rewrite E. simpl. now rewrite app_nil_r.
    + rewrite nth_error_app2, Nat.sub_diag by lia. cbn [nth_error].
      simpl in L.
      destruct (same_node u (c_target sel)) eqn:Hm.
      * rewrite erase_at_app.
        destruct r as [|y r'].
        { simpl. rewrite Hm.
          assert (E : nth_error (l1 ++ []) (S (length l1)) = None)
            by (apply nth_error_None; rewrite length_app; simpl; lia).
          destruct fuel; cbn [remove_loop]; [|rewrite E]; reflexivity. }
        { specialize (IH (l1 ++ [y]) r').
          rewrite length_app in IH. simpl in IH.
          rewrite Nat.add_1_r, <- app_assoc in IH. simpl in IH.
          rewrite IH by (simpl in L; lia).
          rewrite erase_skip_cons2, Hm, <- app_assoc. reflexivity. }
      * specialize (IH (l1 ++ [u]) r).
        rewrite length_app in IH. simpl in IH.
        rewrite Nat.add_1_r, <- app_assoc in IH. simpl in IH.
        rewrite IH by lia.
        simpl. rewrite Hm, <- app_assoc. reflexivity.
Qed.

Lemma remove_covered_eq sel unc :
  remove_covered sel unc = erase_skip (fun u => same_node u (c_target sel)) unc.
Proof.
  unfold remove_covered.
  exact (remove_loop_eq sel (fuel := length unc) [] unc (le_n _)).
Qed.

Lemma promote_loop_eq sel fuel : forall l1 l2 tx,
  length l2 <= fuel ->
  promote_loop fuel (length l1) sel (l1 ++ l2) tx
  = (l1 ++ erase_skip (fun r => same_node r (c_source sel)) l2,
     tx ++ repeat (mkTx (c_x1 sel) (c_y1 sel) (c_cost sel))
             (erase_count (fun r => same_node r (c_source sel)) l2)).
Proof.
  induction fuel as [|fuel IH]; intros l1 l2 tx L.
  - destruct l2; [|simpl in L; lia]. simpl. now rewrite !app_nil_r.
  - cbn [promote_loop].
    destruct l2 as [|u r].
    + rewrite app_nil_r.
      assert (E : nth_error l1 (length l1) = None) by (apply nth_error_None; lia).
      rewrite E. simpl. now rewrite !app_nil_r.
    + rewrite nth_error_app2, Nat.sub_diag by lia. cbn [nth_error].
      simpl in L.
      destruct (same_node u (c_source sel)) eqn:Hm.
      * rewrite erase_at_app.
        destruct r as [|y r'].
        { simpl. rewrite Hm.
          assert (E : nth_error (l1 ++ []) (S (length l1)) = None)
            by (apply nth_error_None; rewrite length_app; simpl; lia).
          destruct fuel; cbn [promote_loop]; [|rewrite E]; reflexivity. }
        { specialize (IH (l1 ++ [y]) r').
          rewrite length_app in IH. simpl in IH.
          rewrite Nat.add_1_r, <- app_assoc in IH. simpl in IH.
          rewrite IH by (simpl in L; lia).
          rewrite erase_skip_cons2, erase_count_cons2, Hm.
          unfold push_back. rewrite <- !app_assoc. reflexivity. }
      * specialize (IH (l1 ++ [u]) r).
        rewrite length_app in IH. simpl in IH.
        rewrite Nat.add_1_r, <- app_assoc in IH. simpl in IH.
        rewrite IH by lia.
        simpl. rewrite Hm, <- app_assoc. reflexivity.
Qed.

Lemma promote_eq sel ntx tx :
  promote sel ntx tx
  = (erase_skip (fun r => same_node r (c_source sel)) ntx,
     tx ++ repeat (mkTx (c_x1 sel) (c_y1 sel) (c_cost sel))
             (erase_count (fun r => same_node r (c_source sel)) ntx)).
Proof.
  unfold promote.
  exact (promote_loop_eq sel (fuel := length ntx) [] ntx tx (le_n _)).
Qed.

End Loops.

(** ** Inputs whose nodes the tolerance test tells apart *)

Section Separation.
Context {num : Type} `{Double num}.

Lemma separatedb_separated l : separatedb l = true -> separated l.
Proof.
  induction l as [|p r IH]; simpl.
  - intros _. repeat split; [constructor | intros ? [] | intros ? ? []].
  - rewrite !andb_true_iff. intros [[Hp Hr] Hs].
    destruct (IH Hs) as (ND & Hself & Hinj).
    rewrite forallb_forall in Hr.
    assert (Hcross : forall q, In q r ->
              same_node p q = false /\ same_node q p = false).
    { intros q Hq. specialize (Hr q Hq).
      rewrite andb_true_iff, !negb_true_iff in Hr. exact Hr. }
    repeat split.
    + constructor; auto. intros Hin.
      destruct (Hcross p Hin) as [E _]. congruence.
    + intros q [<-|Hq]; auto.
    + intros a b [<-|Ha] [<-|Hb] E; auto.
      * destruct (Hcross b Hb) as [E' _]. congruence.
      * destruct (Hcross a Ha) as [_ E']. congruence.
Qed.

Lemma separated_perm l l' : Permutation l l' -> separated l -> separated l'.
Proof.
  intros P (ND & Hself & Hinj).
  repeat split.
  - eapply Permutation_NoDup; eauto.
  - intros p Hp. apply Hself. eapply Permutation_in; [symmetry|]; eauto.
  - intros p q Hp Hq. apply Hinj; eapply Permutation_in; try symmetry; eauto.
Qed.

Lemma update_transmitting_points sel tx :
  map (@tx_point num) (update_transmitting sel tx) = map (@tx_point num) tx.
Proof.
  unfold update_transmitting. rewrite map_map. apply map_ext.
  intros t. destruct (same_node (tx_point t) (c_source sel)); reflexivity.
Qed.

Lemma update_transmitting_none sel tx :
  (forall t, In t tx -> same_node (tx_point t) (c_source sel) = false) ->
  update_transmitting sel tx = tx.
Proof.
  unfold update_transmitting. induction tx as [|t tx IH]; simpl; intros Hn; auto.
  rewrite (Hn t) by auto. f_equal. apply IH. intros; apply Hn; auto.
Qed.

Lemma update_transmitting_one sel t1 t t2 :
  (forall t', In t' t1 -> same_node (tx_point t') (c_source sel) = false) ->
  same_node (tx_point t) (c_source sel) = true ->
  (forall t', In t' t2 -> same_node (tx_point t') (c_source sel) = false) ->
  update_transmitting sel (t1 ++ t :: t2)
  = t1 ++ mkTx (tx_x t) (tx_y t) (d_add (tx_power t) (c_cost sel)) :: t2.
Proof.
  intros H1 Ht H2. unfold update_transmitting.
  rewrite map_app. simpl. rewrite Ht.
  fold (update_transmitting sel t1). fold (update_transmitting sel t2).
  now rewrite !update_transmitting_none.
Qed.

(** Where a selected candidate comes from. *)
Lemma selected_origin st sel :
  In sel (minPowersForAllNodes st) ->
  (exists t u, In t (transmitting st) /\ In u (uncovered st) /\ sel = cand_tx t u)
  \/ (exists r u, In r (nontransmitting st) /\ In u (uncovered st)
                  /\ sel = cand_relay r u).
Proof.
  rewrite minPowersForAllNodes_eq, in_app_iff.
  unfold tx_pool, relay_pool. rewrite !in_flat_map.
  intros [(t & Ht & Hin)|(r & Hr & Hin)]; apply in_map_iff in Hin;
    destruct Hin as (u & <- & Hu); [left|right]; eauto.
Qed.

Lemma candidates_nonempty st :
  transmitting st <> [] -> uncovered st <> [] -> minPowersForAllNodes st <> [].
Proof.
  rewrite minPowersForAllNodes_eq. unfold tx_pool.
  destruct (transmitting st) as [|t tx]; [congruence|].
  destruct (uncovered st) as [|u unc]; [congruence|].
  intros _ _. simpl. discriminate.
Qed.

Lemma NoDup_app_disjoint {A} (l1 l2 : list A) x :
  NoDup (l1 ++ l2) -> In x l1 -> In x l2 -> False.
Proof.
  induction l1 as [|a l1 IH]; simpl; [tauto|].
  intros ND [->|Hin] H2.
  - inversion ND as [|? ? Hnot ND']; subst. apply Hnot. rewrite in_app_iff; auto.
  - inversion ND as [|? ? Hnot ND']; subst. auto.
Qed.

Lemma NoDup_split_notin {A} (l1 : list A) x l2 :
  NoDup (l1 ++ x :: l2) -> ~ In x l1 /\ ~ In x l2.
Proof.
  intros ND. apply NoDup_remove_2 in ND. rewrite in_app_iff in ND. tauto.
Qed.

(** The only row of a separated vector that passes the test against one of
    its members is that member. *)
Lemma separated_split l l1 x l2 (g : Point num -> bool) :
  separated l -> In x l ->
  (forall y, In y (l1 ++ x :: l2) -> In y l) ->
  NoDup (l1 ++ x :: l2) ->
  (forall y, g y = same_node y x) ->
  (forall y, In y l1 -> g y = false) /\ g x = true
  /\ (forall y, In y l2 -> g y = false).
Proof.
  intros (ND & Hself & Hinj) Hx Hsub ND' Hg.
  destruct (NoDup_split_notin _ _ _ ND') as [N1 N2].
  repeat split.
  - intros y Hy. rewrite Hg. destruct (same_node y x) eqn:E; auto.
    apply Hinj in E; auto.
    + subst. contradiction.
    + apply Hsub. rewrite in_app_iff; auto.
  - rewrite Hg. auto.
  - intros y Hy. rewrite Hg. destruct (same_node y x) eqn:E; auto.
    apply Hinj in E; auto.
    + subst. contradiction.
    + apply Hsub. rewrite in_app_iff; simpl; auto.
Qed.

End Separation.

(** ** One round, in closed form *)

Section Round.
Context {num : Type} `{Double num}.

Lemma bip_round_eq st :
  bip_round st =
  match selected st with
  | None => None
  | Some sel =>
      let tx' := update_transmitting sel (transmitting st)
                 ++ repeat (sel_row sel)
                      (erase_count (from_source sel) (nontransmitting st)) in
      let unc' := erase_skip (from_target sel) (uncovered st) in
      Some (mkState tx'
              (erase_skip (from_source sel) (nontransmitting st) ++ [c_target sel])
              unc'
              (transmissionPath st ++ [sel_row sel])
              (round st + 1)%Z
              (stdout st ++ report_round (round st + 1)%Z tx' unc'))
  end.
Proof.
  unfold bip_round, selected.
  destruct (nth_error _ _) as [sel|]; [|reflexivity].
  rewrite promote_eq, remove_covered_eq. reflexivity.
Qed.

Lemma bip_round_some st :
  transmitting st <> [] -> uncovered st <> [] ->
  exists sel, selected st = Some sel /\ In sel (minPowersForAllNodes st).
Proof.
  intros Ht Hu.
  destruct (selected_exists (candidates_nonempty st Ht Hu)) as [sel Hsel].
  exists sel. split; [exact Hsel|]. eapply nth_error_In; eauto.
Qed.

(** On a separated state exactly one covered row is the origin of the
    winning candidate and exactly one uncovered row is its target. *)
Lemma round_separated st :
  separated (all_points st) -> transmitting st <> [] -> uncovered st <> [] ->
  exists sel st' u1 u2,
    bip_round st = Some st'
    /\ selected st = Some sel
    /\ uncovered st = u1 ++ c_target sel :: u2
    /\ uncovered st' = u1 ++ u2
    /\ transmissionPath st' = transmissionPath st ++ [sel_row sel]
    /\ round st' = (round st + 1)%Z
    /\ ((exists t t1 t2,
           transmitting st = t1 ++ t :: t2
           /\ sel = cand_tx t (c_target sel)
           /\ transmitting st'
              = t1 ++ mkTx (tx_x t) (tx_y t) (d_add (tx_power t) (c_cost sel)) :: t2
           /\ nontransmitting st' = nontransmitting st ++ [c_target sel])
        \/ (exists n1 n2,
           nontransmitting st = n1 ++ c_source sel :: n2
           /\ sel = cand_relay (c_source sel) (c_target sel)
           /\ transmitting st' = transmitting st ++ [sel_row sel]
           /\ nontransmitting st' = n1 ++ n2 ++ [c_target sel])).
Proof.
  intros Hsep Ht Hu.
  destruct (bip_round_some st Ht Hu) as (sel & Hsel & Hin).
  pose proof Hsep as (ND & _ & _).
  unfold all_points in ND.
  pose proof (NoDup_app_remove_l _ _ ND) as ND2.
  pose proof (NoDup_app_remove_l _ _ ND2) as NDu.
  pose proof (NoDup_app_remove_r _ _ ND2) as NDn.
  pose proof (NoDup_app_remove_r _ _ ND) as NDt.
  assert (Htarget : forall u, In u (uncovered st) -> c_target sel = u ->
            exists u1 u2, uncovered st = u1 ++ u :: u2
              /\ erase_skip (from_target sel) (uncovered st) = u1 ++ u2).
  { intros u Hinu E.
    destruct (in_split _ _ Hinu) as (u1 & u2 & Eu).
    exists u1, u2. split; [exact Eu|].
    rewrite Eu in NDu.
    destruct (@separated_split _ _ (all_points st) u1 u u2 (from_target sel))
      as (F1 & Fx & F2); auto.
    - unfold all_points. rewrite !in_app_iff; auto.
    - intros y Hy. rewrite <- Eu in Hy. unfold all_points.
      rewrite !in_app_iff; auto.
    - intros y. unfold from_target. now rewrite E.
    - rewrite Eu. apply erase_skip_one; auto. }
  rewrite bip_round_eq, Hsel. cbn zeta.
  destruct (selected_origin st sel Hin)
    as [(t & u & Hint & Hinu & E)|(r & u & Hinr & Hinu & E)].
  - (* a transmitting row grows *)
    assert (Et : c_target sel = u) by (subst sel; destruct u; reflexivity).
    assert (Es : c_source sel = tx_point t) by (subst sel; reflexivity).
    destruct (Htarget u Hinu Et) as (u1 & u2 & Eu & Eerase).
    destruct (in_split _ _ Hint) as (t1 & t2 & Etx).
    assert (Hnone : forall r, In r (nontransmitting st) -> from_source sel r = false).
    { intros r Hr. unfold from_source. rewrite Es.
      destruct (same_node r (tx_point t)) eqn:Em; auto.
      destruct Hsep as (_ & _ & Hinj).
      apply Hinj in Em.
      - subst r. exfalso.
        apply (NoDup_app_disjoint _ _ (tx_point t) ND);
          [apply in_map; auto | rewrite in_app_iff; auto].
      - unfold all_points. rewrite !in_app_iff; auto.
      - unfold all_points. rewrite !in_app_iff. left. apply in_map; auto. }
    destruct (erase_skip_none _ _ Hnone) as [En Ec].
    rewrite En, Ec. simpl repeat. rewrite app_nil_r.
    eexists sel, _, u1, u2. split; [reflexivity|]. cbn [uncovered transmissionPath
      round transmitting nontransmitting].
    rewrite Et. repeat split; auto.
    left. exists t, t1, t2. repeat split; auto.
    + rewrite Etx. rewrite Etx, map_app in NDt. simpl in NDt.
      destruct (@separated_split _ _ (all_points st) (map (@tx_point _) t1)
                  (tx_point t) (map (@tx_point _) t2)
                  (fun p => same_node p (c_source sel))) as (F1 & Fx & F2); auto.
      * unfold all_points. rewrite !in_app_iff. left. apply in_map; auto.
      * intros y Hy. unfold all_points. rewrite Etx, map_app, !in_app_iff.
        simpl. rewrite in_app_iff in Hy. simpl in Hy. tauto.
      * intros y. now rewrite Es.
      * apply update_transmitting_one; auto.
        { intros t' Ht'. apply F1. apply in_map; auto. }
        { intros t' Ht'. apply F2. apply in_map; auto. }
  - (* a relay is promoted *)
    assert (Et : c_target sel = u) by (subst sel; destruct u; reflexivity).
    assert (Es : c_source sel = r) by (subst sel; destruct r; reflexivity).
    destruct (Htarget u Hinu Et) as (u1 & u2 & Eu & Eerase).
    destruct (in_split _ _ Hinr) as (n1 & n2 & En).
    assert (Hnone : forall t, In t (transmitting st) ->
              same_node (tx_point t) (c_source sel) = false).
    { intros t Htin. rewrite Es.
      destruct (same_node (tx_point t) r) eqn:Em; auto.
      destruct Hsep as (_ & _ & Hinj).
      apply Hinj in Em.
      - exfalso.
        apply (NoDup_app_disjoint _ _ r ND);
          [rewrite <- Em; apply in_map; auto | rewrite in_app_iff; auto].
      - unfold all_points. rewrite !in_app_iff. left. apply in_map; auto.
      - unfold all_points. rewrite !in_app_iff; auto. }
    rewrite (update_transmitting_none _ _ Hnone).
    rewrite En in NDn.
    destruct (@separated_split _ _ (all_points st) n1 r n2 (from_source sel))
      as (F1 & Fx & F2); auto.
    { unfold all_points. rewrite !in_app_iff; auto. }
    { intros y Hy. rewrite <- En in Hy. unfold all_points.
      rewrite !in_app_iff; auto. }
    { intros y. unfold from_source. now rewrite Es. }
    destruct (erase_skip_one _ n1 r n2 F1 Fx F2) as [Esk Ecn].
    rewrite En, Esk, Ecn. simpl repeat.
    eexists sel, _, u1, u2. split; [reflexivity|]. cbn [uncovered transmissionPath
      round transmitting nontransmitting].
    rewrite Et, Es. repeat split; auto.
    right. exists n1, n2. repeat split; auto.
    now rewrite <- app_assoc.
Qed.

End Round.

(** ** Invariants of the loop on separated inputs *)

Section Invariants.
Context {num : Type} `{Double num}.

Lemma skipn_nth_error {A} (l : list A) k p :
  nth_error l k = Some p -> skipn k l = p :: skipn (S k) l.
Proof.
  revert k; induction l as [|a l IH]; intros [|k]; simpl; try discriminate.
  - now intros [= ->].
  - intros Hn. now rewrite (IH _ Hn).
Qed.

Lemma seed_uncovered (l : list (Point num)) n : forall k acc,
  fold_left (fun unc i =>
    match nth_error l i with
    | Some p => push_back unc (fst p, snd p)
    | None => unc
    end) (seq k n) acc
  = acc ++ firstn n (skipn k l).
Proof.
  induction n as [|n IH]; intros k acc; simpl.
  - now rewrite app_nil_r.
  - rewrite IH. destruct (nth_error l k) as [p|] eqn:E.
    + rewrite (skipn_nth_error _ _ E). unfold push_back.
      rewrite <- app_assoc. destruct p; reflexivity.
    + apply nth_error_None in E.
      rewrite !skipn_all2 by lia. now rewrite !firstn_nil.
Qed.

(** The seeded state: the first location transmits with power 0, the
    others are uncovered, in file order. *)
Lemma bip_init_cons (src : Point num) rest :
  bip_init (src :: rest)
  = Some (mkState [mkTx (fst src) (snd src) d_zero] [] rest [] 0%Z []).
Proof.
  unfold bip_init. cbn [nth_error].
  rewrite seed_uncovered. cbn [length]. rewrite Nat.sub_succ, Nat.sub_0_r.
  simpl skipn. now rewrite firstn_all.
Qed.

Lemma bip_init_nil : bip_init (@nil (Point num)) = None.
Proof. reflexivity. Qed.

Lemma perm_cover {A} (T N u1 u2 : list A) c :
  Permutation (T ++ (N ++ [c]) ++ u1 ++ u2) (T ++ N ++ u1 ++ c :: u2).
Proof.
  apply Permutation_app_head. rewrite <- app_assoc.
  apply Permutation_app_head. simpl. apply Permutation_middle.
Qed.

Lemma perm_promote {A} (T n1 n2 u1 u2 : list A) r c :
  Permutation ((T ++ [r]) ++ (n1 ++ n2 ++ [c]) ++ u1 ++ u2)
              (T ++ (n1 ++ r :: n2) ++ u1 ++ c :: u2).
Proof.
  rewrite <- !app_assoc. apply Permutation_app_head. simpl.
  etransitivity; [apply Permutation_middle|].
  apply Permutation_app_head, perm_skip, Permutation_app_head.
  apply Permutation_middle.
Qed.

Lemma inv_init locations st : bip_init locations = Some st -> Inv locations st.
Proof.
  destruct locations as [|src rest]; [discriminate|].
  rewrite bip_init_cons. intros [= <-].
  split; cbn; try (discriminate || lia || reflexivity).
  destruct src; reflexivity.
Qed.

Lemma inv_round locations st :
  separated locations -> Inv locations st -> uncovered st <> [] ->
  exists st', bip_round st = Some st' /\ Inv locations st'
              /\ length (uncovered st') + 1 = length (uncovered st).
Proof.
  intros Hsep [Hperm Htx Hround Hcount] Hu.
  assert (Hsep' : separated (all_points st))
    by (eapply separated_perm; [symmetry|]; eauto).
  destruct (round_separated st Hsep' Htx Hu)
    as (sel & st' & u1 & u2 & Hr & _ & Eu & Eu' & Ep & Er & Hcase).
  exists st'. split; [exact Hr|].
  assert (L : length (uncovered st') + 1 = length (uncovered st)).
  { rewrite Eu, Eu', !length_app. simpl. lia. }
  split; [|exact L].
  split.
  - rewrite <- Hperm. unfold all_points. rewrite Eu, Eu'.
    destruct Hcase as [(t & t1 & t2 & Et & _ & Et' & En')
                      |(n1 & n2 & En & _ & Et' & En')].
    + rewrite Et', En', Et, !map_app. simpl. apply perm_cover.
    + rewrite Et', En', En, map_app. simpl. unfold tx_point at 2. simpl.
      fold (c_source sel). apply perm_promote.
  - destruct Hcase as [(t & t1 & t2 & _ & _ & -> & _)|(_ & _ & _ & _ & -> & _)];
      destruct (transmitting st); try destruct t1; discriminate || congruence.
  - rewrite Er, Ep, Hround, length_app. simpl. lia.
  - rewrite Ep, length_app. simpl. lia.
Qed.

Lemma reachable_inv locations st :
  separated locations -> reachable locations st -> Inv locations st.
Proof.
  intros Hsep Hreach. induction Hreach as [st Hi|st st' _ IH Hu Hr].
  - now apply inv_init.
  - destruct (inv_round Hsep IH Hu) as (st'' & Hr' & Hinv & _).
    congruence.
Qed.

Lemma bip_loop_separated locations fuel : forall st,
  separated locations -> Inv locations st ->
  length (uncovered st) <= fuel ->
  exists st', bip_loop fuel st = inl st' /\ Inv locations st'
              /\ uncovered st' = [].
Proof.
  induction fuel as [|fuel IH]; intros st Hsep Hinv L.
  - destruct (uncovered st) eqn:E; [|simpl in L; lia].
    exists st. simpl. rewrite E. auto.
  - destruct (uncovered st) as [|u unc] eqn:E.
    + exists st. simpl. rewrite E. auto.
    + assert (Hu : uncovered st <> []) by congruence.
      destruct (inv_round Hsep Hinv Hu) as (st' & Hr & Hinv' & L').
      destruct (IH st' Hsep Hinv') as (st'' & Hl & Hinv'' & E'').
      { rewrite E in L'. simpl in L, L'. lia. }
      exists st''. simpl. rewrite E, Hr. auto.
Qed.

Lemma rounds_from_separated locations k : forall st,
  separated locations -> Inv locations st ->
  k <= length (uncovered st) ->
  exists st', rounds_from k st = Some st' /\ Inv locations st'
              /\ length (uncovered st') + k = length (uncovered st).
Proof.
  induction k as [|k IH]; intros st Hsep Hinv L.
  - exists st. simpl. auto.
  - destruct (uncovered st) as [|u unc] eqn:E; [simpl in L; lia|].
    assert (Hu : uncovered st <> []) by congruence.
    destruct (inv_round Hsep Hinv Hu) as (st' & Hr & Hinv' & L').
    destruct (IH st' Hsep Hinv') as (st'' & Hl & Hinv'' & E'').
    { rewrite E in L'. simpl in L, L'. lia. }
    exists st''. simpl. rewrite E, Hr. split; [|split]; auto.
    rewrite E in L'. simpl in *. lia.
Qed.

End Invariants.

(** ** Progress of the loop on any input *)

Section Progress.
Context {num : Type} `{Double num}.

(** A round always erases the first uncovered row that passes the test
    against the newly covered node, and the newly covered node is itself
    an uncovered row. *)
Lemma round_progress (st : State num) :
  transmitting st <> [] -> uncovered st <> [] ->
  (forall u, In u (uncovered st) -> same_node u u = true) ->
  exists st', bip_round st = Some st'
    /\ length (uncovered st') < length (uncovered st)
    /\ (forall u, In u (uncovered st') -> In u (uncovered st))
    /\ transmitting st' <> []
    /\ length (transmissionPath st') = S (length (transmissionPath st))
    /\ round st' = (round st + 1)%Z.
Proof.
  intros Ht Hu Hself.
  destruct (bip_round_some st Ht Hu) as (sel & Hsel & Hin).
  rewrite bip_round_eq, Hsel. cbn zeta. eexists. split; [reflexivity|].
  cbn [uncovered transmitting transmissionPath round].
  assert (Htarget : In (c_target sel) (uncovered st)).
  { destruct (selected_origin st sel Hin)
      as [(t & [ux uy] & _ & Hinu & ->)|(r & [ux uy] & _ & Hinu & ->)];
      exact Hinu. }
  pose proof (erase_count_pos (from_target sel) _ _ Htarget
                (Hself _ Htarget)) as Hpos.
  pose proof (erase_skip_length (from_target sel) (uncovered st)) as Hlen.
  repeat split.
  - lia.
  - intros u. apply erase_skip_incl.
  - destruct (transmitting st); [congruence|]. simpl. discriminate.
  - rewrite length_app. simpl. lia.
Qed.

Lemma bip_loop_terminates bound fuel : forall st,
  Progressing bound st -> length (uncovered st) <= fuel ->
  exists st', bip_loop fuel st = inl st' /\ Progressing bound st'
              /\ uncovered st' = [].
Proof.
  induction fuel as [|fuel IH]; intros st Hp L.
  - destruct (uncovered st) eqn:E; [|simpl in L; lia].
    exists st. simpl. rewrite E. auto.
  - destruct (uncovered st) as [|u unc] eqn:E.
    + exists st. simpl. rewrite E. auto.
    + destruct Hp as [Ht Hself Hr Hc].
      assert (Hu : uncovered st <> []) by congruence.
      destruct (round_progress st Ht Hu Hself)
        as (st' & Hround & Hlt & Hsub & Ht' & Hpath & Hr').
      destruct (IH st') as (st'' & Hl & Hp'' & E'').
      { split; auto.
        - rewrite Hr', Hpath, Hr. lia.
        - lia. }
      { rewrite E in Hlt. simpl in L, Hlt. lia. }
      exists st''. simpl. rewrite E, Hround. auto.
Qed.

End Progress.

(** ** The claims on the number of rounds and on the three sets *)

Section Claims.
Context {num : Type} `{Double num}.

Lemma inv_partitioned locations st :
  separated locations -> Inv locations st -> partitioned locations st.
Proof.
  intros (ND & _ & _) [Hperm _ _ _].
  assert (ND' : NoDup (all_points st))
    by (eapply Permutation_NoDup; [symmetry|]; eauto).
  unfold all_points in *.
  repeat split.
  - intros Hp. apply (Permutation_in _ (Permutation_sym Hperm)) in Hp.
    rewrite !in_app_iff in Hp. exact Hp.
  - intros Hp. apply (Permutation_in _ Hperm). rewrite !in_app_iff. exact Hp.
  - intros p H1 H2. apply (NoDup_app_disjoint _ _ p ND'); auto.
    rewrite in_app_iff; auto.
  - intros p H1 H2. apply (NoDup_app_disjoint _ _ p ND'); auto.
    rewrite in_app_iff; auto.
  - intros p H1 H2. apply NoDup_app_remove_l in ND'.
    apply (NoDup_app_disjoint _ _ p ND'); auto.
Qed.

(** More fuel does not change the state in which the loop ends. *)
Lemma bip_loop_mono fuel : forall (st st' : State num) k,
  bip_loop fuel st = inl st' -> bip_loop (fuel + k) st = inl st'.
Proof.
  induction fuel as [|fuel IH]; intros st st' k; simpl.
  - destruct (uncovered st) eqn:E; [|discriminate].
    intros Hst. destruct k; simpl; rewrite E; exact Hst.
  - destruct (uncovered st); auto.
    destruct (bip_round st); auto.
Qed.

Lemma bip_deterministic (locations : list (Point num)) f1 f2 s1 s2 :
  bip f1 locations = inl s1 -> bip f2 locations = inl s2 -> s1 = s2.
Proof.
  unfold bip. destruct (bip_init locations) as [st0|]; [|discriminate].
  intros H1 H2.
  apply bip_loop_mono with (k := f2) in H1.
  apply bip_loop_mono with (k := f1) in H2.
  rewrite Nat.add_comm in H2. congruence.
Qed.

(** C2, amended.  On every non-empty input whose nodes pass the tolerance
    test against themselves the loop terminates, for every fuel of at least
    [N - 1], after at most [N - 1] rounds, with one path entry per round.
    When the test moreover tells all input nodes apart, the loop performs
    exactly [N - 1] rounds and logs [N - 1] entries, and each round moves
    exactly one node out of [uncovered]: after [k] rounds [N - 1 - k] nodes
    are left. *)
Theorem round_count (locations : list (Point num)) :
  forallb (fun p => same_node p p) locations = true -> locations <> [] ->
  (forall fuel, length locations - 1 <= fuel ->
     exists st, bip fuel locations = inl st
       /\ uncovered st = []
       /\ round st = Z.of_nat (length (transmissionPath st))
       /\ length (transmissionPath st) <= length locations - 1)
  /\ (separatedb locations = true ->
      (forall fuel, length locations - 1 <= fuel ->
         exists st, bip fuel locations = inl st
           /\ uncovered st = []
           /\ round st = (Z.of_nat (length locations) - 1)%Z
           /\ length (transmissionPath st) = length locations - 1)
      /\ (forall k, k <= length locations - 1 ->
         exists st, state_after k locations = Some st
           /\ round st = Z.of_nat k
           /\ length (transmissionPath st) = k
           /\ length (uncovered st) = length locations - 1 - k)).
Proof.
  intros Hself Hne.
  destruct locations as [|src rest]; [congruence|].
  assert (Hinit := bip_init_cons src rest).
  split.
  - intros fuel Hfuel. unfold bip. rewrite Hinit.
    destruct (@bip_loop_terminates _ _ (length rest) fuel
                (mkState [mkTx (fst src) (snd src) d_zero] [] rest [] 0%Z []))
      as (st & Hl & [_ _ Hr Hc] & Hu).
    + split; cbn; try (discriminate || lia || reflexivity).
      intros u Hu. rewrite forallb_forall in Hself. apply Hself. simpl; auto.
    + simpl in *. lia.
    + exists st. rewrite Hu in Hc. simpl in *.
      repeat split; auto. lia.
  - intros Hsep. apply separatedb_separated in Hsep.
    assert (Hinv := inv_init _ Hinit).
    split.
    + intros fuel Hfuel. unfold bip. rewrite Hinit.
      destruct (bip_loop_separated (fuel := fuel) Hsep Hinv)
        as (st & Hl & [_ _ Hr Hc] & Hu).
      { simpl in *. lia. }
      exists st. rewrite Hu in Hc. simpl in Hc.
      repeat split; auto.
      * rewrite Hr. simpl length in *. lia.
      * simpl length in *. lia.
    + intros k Hk. unfold state_after. rewrite Hinit.
      destruct (rounds_from_separated (k := k) Hsep Hinv)
        as (st & Hl & [_ _ Hr Hc] & Hu).
      { simpl in *. lia. }
      exists st. simpl in Hu. simpl length in *.
      repeat split; auto; try lia.
Qed.

(** C3, amended.  When the tolerance test tells all input nodes apart, then
    after seeding and after every round the transmitting, non-transmitting
    covered and uncovered nodes are pairwise disjoint and are together a
    rearrangement of the input nodes. *)
Theorem partition_on_separated_input (locations : list (Point num)) st :
  separatedb locations = true -> reachable locations st ->
  partitioned locations st /\ Permutation (all_points st) locations.
Proof.
  intros Hsep Hreach. apply separatedb_separated in Hsep.
  pose proof (reachable_inv Hsep Hreach) as Hinv.
  split; [now apply inv_partitioned | apply Hinv].
Qed.

End Claims.

Lemma round_count_witness :
  forallb (fun p => same_node p p) (line3 inject_Z) = true
  /\ line3 inject_Z <> []
  /\ exists st, bip 2 (line3 inject_Z) = inl st /\ round st = 2%Z.
Proof.
  assert (Hs : forallb (fun p => same_node p p) (line3 inject_Z) = true)
    by (vm_compute; reflexivity).
  assert (Hn : line3 inject_Z <> []) by (unfold line3; discriminate).
  assert (Hsep : separatedb (line3 inject_Z) = true) by (vm_compute; reflexivity).
  split; [exact Hs|]. split; [exact Hn|].
  destruct (round_count (locations := line3 inject_Z) Hs Hn) as [_ Hexact].
  destruct (Hexact Hsep) as [Hrun _].
  destruct (Hrun 2) as (st & Hb & _ & Hr & _); [simpl; lia|].
  exists st. split; [exact Hb | exact Hr].
Defined.

Lemma partition_on_separated_input_witness :
  separatedb (line3 inject_Z) = true
  /\ exists st, reachable (line3 inject_Z) st
       /\ partitioned (line3 inject_Z) st.
Proof.
  assert (Hs : separatedb (line3 inject_Z) = true) by (vm_compute; reflexivity).
  split; [exact Hs|].
  eexists. split.
  - apply reach_init. vm_compute. reflexivity.
  - refine (proj1 (partition_on_separated_input (locations := line3 inject_Z) Hs _)).
    apply reach_init. vm_compute. reflexivity.
Defined.

Section Reaching.
Context {num : Type} `{Double num}.

Lemma rounds_from_reachable (locations : list (Point num)) k : forall st0 st,
  reachable locations st0 -> rounds_from k st0 = Some st ->
  reachable locations st.
Proof.
  induction k as [|k IH]; intros st0 st Hreach; simpl.
  - now intros [= <-].
  - destruct (uncovered st0) eqn:E; [discriminate|].
    destruct (bip_round st0) as [st1|] eqn:Hr; [|discriminate].
    apply IH. eapply reach_round; eauto. congruence.
Qed.

Lemma state_after_reachable (locations : list (Point num)) k st :
  state_after k locations = Some st -> reachable locations st.
Proof.
  unfold state_after.
  destruct (bip_init locations) as [st0|] eqn:Hi; [|discriminate].
  apply rounds_from_reachable. now apply reach_init.
Qed.

End Reaching.

(** Two binary64 values are different when one is below the other. *)
Lemma float_lt_neq (a b : float) :
  PrimFloat.ltb a b = true -> PrimFloat.ltb a a = false -> a <> b /\ b <> a.
Proof.
  intros Hlt Hrefl. split; intros E; rewrite E in *; congruence.
Qed.

(** C2 as stated fails in binary64 on [twin_far]: four nodes, and the loop
    is over after two rounds, whatever the fuel. *)
Lemma rounds_not_exact : ~ runs_exactly twin_far.
Proof.
  intros (fuel & st & Hb & Hr & _).
  assert (H2 : exists st2, bip 2 twin_far = inl st2 /\ round st2 = 2%Z)
    by (eexists; split; vm_compute; reflexivity).
  destruct H2 as (st2 & Hb2 & Hr2).
  assert (E : st = st2) by (eapply bip_deterministic; eauto).
  rewrite E, Hr2 in Hr. discriminate.
Qed.

(** C3 as stated fails in binary64 on [twin_far]: round 1 covers (1,0) and
    erases from [uncovered] both (1,0) and its neighbour
    (1.00006103515625,0), which from then on is in none of the three
    vectors. *)
Lemma partition_broken :
  exists st, state_after 1 twin_far = Some st
    /\ reachable twin_far st
    /\ transmitting st = [mkTx 0 0 1]%float
    /\ nontransmitting st = [(1, 0)]%float
    /\ uncovered st = [(5, 0)]%float
    /\ ~ partitioned twin_far st.
Proof.
  assert (H1 : exists st, state_after 1 twin_far = Some st)
    by (eexists; vm_compute; reflexivity).
  destruct H1 as (st & H1).
  pose proof (state_after_reachable _ _ H1) as Hreach.
  vm_compute in H1. injection H1 as <-.
  match type of Hreach with reachable _ ?s => exists s end.
  split; [vm_compute; reflexivity|]. split; [exact Hreach|].
  do 3 (split; [reflexivity|]).
  intros (Hall & _).
  destruct (proj1 (Hall (1.00006103515625, 0)%float)) as [E|[E|E]];
    [simpl; auto | | | ];
    simpl in E; destruct E as [E|[]]; apply (f_equal fst) in E; simpl in E;
    revert E.
  - refine (proj1 (float_lt_neq _ _)); vm_compute; reflexivity.
  - refine (proj1 (float_lt_neq _ _)); vm_compute; reflexivity.
  - refine (proj2 (float_lt_neq _ _)); vm_compute; reflexivity.
Qed.

(** On [twin_adjacent] the walk over [uncovered] erases the neighbour
    stored just before the newly covered node (1,0) and then steps over
    (1,0) itself, which stays uncovered although it is covered. *)
Lemma covered_node_stays_uncovered :
  exists st, state_after 1 twin_adjacent = Some st
    /\ nontransmitting st = [(1, 0)]%float
    /\ uncovered st = [(1, 0)]%float.
Proof. eexists. repeat split; vm_compute; reflexivity. Qed.

(** ** Selection of the winning candidate *)

Lemma nth_flat_map_map {A B C} (g : A -> B -> C) (U : list B) :
  forall (T : list A) i j t u,
    nth_error T i = Some t -> nth_error U j = Some u ->
    nth_error (flat_map (fun t => map (g t) U) T) (i * length U + j)
    = Some (g t u).
Proof.
  induction T as [|a T IH]; intros [|i] j t u Ht Hu; simpl in *; try discriminate.
  - injection Ht as ->.
    rewrite nth_error_app1.
    + now rewrite nth_error_map, Hu.
    + rewrite length_map. apply nth_error_Some. congruence.
  - rewrite nth_error_app2; rewrite length_map; [|lia].
    replace (length U + i * length U + j - length U) with (i * length U + j) by lia.
    now apply IH.
Qed.

Lemma length_flat_map_map {A B C} (g : A -> B -> C) (U : list B) (T : list A) :
  length (flat_map (fun t => map (g t) U) T) = length T * length U.
Proof.
  induction T as [|a T IH]; simpl; auto.
  now rewrite length_app, length_map, IH.
Qed.

Section Enumeration.
Context {num : Type} `{Double num}.

(** Candidate number [i * |uncovered| + j] prices transmitting row [i]
    against uncovered row [j]; the relay candidates follow all of them,
    laid out the same way. *)
Lemma enumeration_order (st : State num) :
  (forall i j t u,
     nth_error (transmitting st) i = Some t ->
     nth_error (uncovered st) j = Some u ->
     nth_error (minPowersForAllNodes st) (i * length (uncovered st) + j)
     = Some (cand_tx t u))
  /\ (forall i j r u,
     nth_error (nontransmitting st) i = Some r ->
     nth_error (uncovered st) j = Some u ->
     nth_error (minPowersForAllNodes st)
       (length (transmitting st) * length (uncovered st)
        + (i * length (uncovered st) + j))
     = Some (cand_relay r u)).
Proof.
  rewrite minPowersForAllNodes_eq. unfold tx_pool, relay_pool. split.
  - intros i j t u Ht Hu.
    rewrite nth_error_app1.
    + now apply nth_flat_map_map.
    + apply nth_error_Some.
      rewrite (nth_flat_map_map (@cand_tx num _) _ _ _ _ Ht Hu). discriminate.
  - intros i j r u Hr Hu.
    rewrite nth_error_app2; rewrite length_flat_map_map; [|lia].
    rewrite Nat.add_comm, Nat.add_sub.
    now apply nth_flat_map_map.
Qed.

End Enumeration.

(** ** The order on costs under exact arithmetic *)

Lemma Qltb_lt (x y : Q) : Qltb x y = true <-> (x < y)%Q.
Proof.
  unfold Qltb. rewrite negb_true_iff.
  split.
  - intros Hf. apply Qnot_le_lt. intros Hle.
    apply Qle_bool_iff in Hle. congruence.
  - intros Hlt. destruct (Qle_bool y x) eqn:E; auto.
    apply Qle_bool_iff in E. apply Qlt_not_le in Hlt. contradiction.
Qed.

Lemma Qltb_ge (x y : Q) : Qltb x y = false <-> (y <= x)%Q.
Proof.
  unfold Qltb. rewrite negb_false_iff. apply Qle_bool_iff.
Qed.

(** Under exact arithmetic every node passes the tolerance test against
    itself, so the first hypothesis of [round_count] holds for every
    input. *)
Lemma self_match_exact (locations : list (Point Q)) :
  forallb (fun p => same_node p p) locations = true.
Proof.
  apply forallb_forall. intros [x y] _.
  assert (Hd : forall a : Q, doubleEquals a a = true).
  { intros a. unfold doubleEquals. apply Qltb_lt.
    assert (E : (Qabs (a - a) == 0)%Q)
      by (setoid_replace (a - a)%Q with 0%Q by ring; reflexivity).
    change (Qabs (a - a) < 1 # 10000)%Q. rewrite E. reflexivity. }
  unfold same_node. cbn [fst snd]. now rewrite !Hd.
Qed.

(** [std::min_element] over rationals returns the first position that
    holds the least value. *)
Lemma min_element_from_first (l : list Q) : forall pre s v,
  nth_error pre s = Some v ->
  (forall j x, nth_error pre j = Some x -> (v <= x)%Q) ->
  (forall j x, j < s -> nth_error pre j = Some x -> (v < x)%Q) ->
  let k := min_element_from s v (length pre) l in
  exists vk, nth_error (pre ++ l) k = Some vk
    /\ (forall j x, nth_error (pre ++ l) j = Some x -> (vk <= x)%Q)
    /\ (forall j x, j < k -> nth_error (pre ++ l) j = Some x -> (vk < x)%Q).
Proof.
  induction l as [|x l IH]; intros pre s v Hs Hle Hlt; simpl.
  - exists v. rewrite app_nil_r. auto.
  - assert (Hlen : s < length pre) by (apply nth_error_Some; congruence).
    assert (Happ : pre ++ x :: l = (pre ++ [x]) ++ l)
      by (now rewrite <- app_assoc).
    assert (L : length (pre ++ [x]) = S (length pre))
      by (rewrite length_app; simpl; lia).
    destruct (Qltb x v) eqn:E.
    + apply Qltb_lt in E.
      rewrite Happ, <- L. apply IH.
      * rewrite nth_error_app2, Nat.sub_diag by lia. reflexivity.
      * intros j y Hj.
        destruct (Nat.lt_ge_cases j (length pre)) as [Hlj|Hlj].
        { rewrite nth_error_app1 in Hj by lia.
          apply Qlt_le_weak. eapply Qlt_le_trans; eauto. }
        { rewrite nth_error_app2 in Hj by lia.
          destruct (j - length pre) as [|[|n]]; simpl in Hj; try discriminate.
          injection Hj as <-. apply Qle_refl. }
      * intros j y Hj Hy.
        rewrite nth_error_app1 in Hy by lia.
        eapply Qlt_le_trans; eauto.
    + apply Qltb_ge in E.
      rewrite Happ, <- L. apply IH.
      * rewrite nth_error_app1 by lia. exact Hs.
      * intros j y Hj.
        destruct (Nat.lt_ge_cases j (length pre)) as [Hlj|Hlj].
        { rewrite nth_error_app1 in Hj by lia. eauto. }
        { rewrite nth_error_app2 in Hj by lia.
          destruct (j - length pre) as [|[|n]]; simpl in Hj; try discriminate.
          injection Hj as <-. exact E. }
      * intros j y Hj Hy.
        rewrite nth_error_app1 in Hy by lia. eauto.
Qed.

Lemma min_element_index_first (l : list Q) :
  l <> [] ->
  exists vk, nth_error l (min_element_index l) = Some vk
    /\ (forall j x, nth_error l j = Some x -> (vk <= x)%Q)
    /\ (forall j x, j < min_element_index l -> nth_error l j = Some x -> (vk < x)%Q).
Proof.
  destruct l as [|x l]; [congruence|]. intros _.
  apply (@min_element_from_first l [x] 0 x).
  - reflexivity.
  - intros [|[|j]] y Hy; simpl in Hy; try discriminate.
    injection Hy as <-. apply Qle_refl.
  - intros j y Hj. lia.
Qed.

(** ** The order on costs in binary64 *)

(** The comparisons of the IEEE 754 specification order the values other
    than NaN; a comparison with NaN is false. *)
Lemma SF_not_lt_le (a b : spec_float) :
  sf_number a = true -> sf_number b = true ->
  SFltb a b = false -> SFleb b a = true.
Proof.
  unfold SFltb, SFleb.
  destruct a as [sa|sa| |sa ma ea], b as [sb|sb| |sb mb eb]; simpl;
    intros; sf_cases.
Qed.

Lemma SF_lt_le_trans (a b c : spec_float) :
  SFltb a b = true -> SFleb b c = true -> SFltb a c = true.
Proof.
  unfold SFltb, SFleb.
  destruct a as [sa|sa| |sa ma ea], b as [sb|sb| |sb mb eb],
    c as [sc|sc| |sc mc ec]; simpl; intros; sf_cases.
Qed.

Lemma SF_lt_le (a b : spec_float) : SFltb a b = true -> SFleb a b = true.
Proof.
  unfold SFltb, SFleb. destruct (SFcompare a b) as [[]|]; congruence.
Qed.

Lemma SF_le_refl (a : spec_float) : sf_number a = true -> SFleb a a = true.
Proof.
  unfold SFleb. destruct a as [sa|sa| |sa ma ea]; simpl; intros; sf_cases.
  all: rewrite ?Z.compare_refl, ?Pos.compare_cont_refl in *; simpl in *;
    congruence.
Qed.

Lemma is_nan_number (x : float) :
  PrimFloat.is_nan x = false <-> sf_number (Prim2SF x) = true.
Proof.
  unfold PrimFloat.is_nan. rewrite negb_false_iff, eqb_spec. unfold SFeqb.
  destruct (Prim2SF x) as [s|s| |s m e]; simpl;
    try tauto; try (split; congruence).
  - destruct s; tauto.
  - destruct s; rewrite Z.compare_refl, Pos.compare_cont_refl; simpl; tauto.
Qed.

Lemma float_not_lt_le (x y : float) :
  PrimFloat.is_nan x = false -> PrimFloat.is_nan y = false ->
  PrimFloat.ltb x y = false -> PrimFloat.leb y x = true.
Proof.
  rewrite !is_nan_number, ltb_spec, leb_spec. apply SF_not_lt_le.
Qed.

Lemma float_lt_le_trans (x y z : float) :
  PrimFloat.ltb x y = true -> PrimFloat.leb y z = true ->
  PrimFloat.ltb x z = true.
Proof. rewrite !ltb_spec, leb_spec. apply SF_lt_le_trans. Qed.

Lemma float_lt_le (x y : float) :
  PrimFloat.ltb x y = true -> PrimFloat.leb x y = true.
Proof. rewrite ltb_spec, leb_spec. apply SF_lt_le. Qed.

Lemma float_le_refl (x : float) :
  PrimFloat.is_nan x = false -> PrimFloat.leb x x = true.
Proof. rewrite is_nan_number, leb_spec. apply SF_le_refl. Qed.

(** The selection compares stored costs with [<] and nothing else, so it
    is studied for every way of computing [+], [-], [pow] and [std::abs]
    on binary64 values; only [<] is the IEEE 754 comparison. *)
Section SelectionBinary64.
Context (D : Double float).
Hypothesis D_ltb : forall x y : float, d_ltb x y = PrimFloat.ltb x y.

(** [std::min_element] over binary64 values none of which is NaN returns
    the first position that holds the least value. *)
Lemma min_element_from_first_binary64 (l : list float) : forall pre s v,
  (forall x, In x l -> PrimFloat.is_nan x = false) ->
  PrimFloat.is_nan v = false ->
  nth_error pre s = Some v ->
  (forall j x, nth_error pre j = Some x -> PrimFloat.leb v x = true) ->
  (forall j x, j < s -> nth_error pre j = Some x -> PrimFloat.ltb v x = true) ->
  let k := min_element_from s v (length pre) l in
  exists vk, nth_error (pre ++ l) k = Some vk
    /\ (forall j x, nth_error (pre ++ l) j = Some x ->
          PrimFloat.leb vk x = true)
    /\ (forall j x, j < k -> nth_error (pre ++ l) j = Some x ->
          PrimFloat.ltb vk x = true).
Proof.
  induction l as [|x l IH]; intros pre s v Hnum Hv Hs Hle Hlt; simpl.
  - exists v. rewrite app_nil_r. auto.
  - assert (Hlen : s < length pre) by (apply nth_error_Some; congruence).
    assert (Happ : pre ++ x :: l = (pre ++ [x]) ++ l)
      by (now rewrite <- app_assoc).
    assert (L : length (pre ++ [x]) = S (length pre))
      by (rewrite length_app; simpl; lia).
    assert (Hx : PrimFloat.is_nan x = false) by (apply Hnum; now left).
    assert (Hl : forall y, In y l -> PrimFloat.is_nan y = false)
      by (intros y Hy; apply Hnum; now right).
    rewrite D_ltb.
    destruct (PrimFloat.ltb x v) eqn:E.
    + rewrite Happ, <- L. apply IH; auto.
      * rewrite nth_error_app2, Nat.sub_diag by lia. reflexivity.
      * intros j y Hj.
        destruct (Nat.lt_ge_cases j (length pre)) as [Hlj|Hlj].
        { rewrite nth_error_app1 in Hj by lia.
          apply float_lt_le. eapply float_lt_le_trans; eauto. }
        { rewrite nth_error_app2 in Hj by lia.
          destruct (j - length pre) as [|[|n]]; simpl in Hj; try discriminate.
          injection Hj as <-. now apply float_le_refl. }
      * intros j y Hj Hy.
        rewrite nth_error_app1 in Hy by lia.
        eapply float_lt_le_trans; eauto.
    + rewrite Happ, <- L. apply IH; auto.
      * rewrite nth_error_app1 by lia. exact Hs.
      * intros j y Hj.
        destruct (Nat.lt_ge_cases j (length pre)) as [Hlj|Hlj].
        { rewrite nth_error_app1 in Hj by lia. eauto. }
        { rewrite nth_error_app2 in Hj by lia.
          destruct (j - length pre) as [|[|n]]; simpl in Hj; try discriminate.
          injection Hj as <-. now apply float_not_lt_le. }
      * intros j y Hj Hy.
        rewrite nth_error_app1 in Hy by lia. eauto.
Qed.

Lemma min_element_index_first_binary64 (l : list float) :
  l <> [] -> (forall x, In x l -> PrimFloat.is_nan x = false) ->
  exists vk, nth_error l (min_element_index l) = Some vk
    /\ (forall j x, nth_error l j = Some x -> PrimFloat.leb vk x = true)
    /\ (forall j x, j < min_element_index l -> nth_error l j = Some x ->
          PrimFloat.ltb vk x = true).
Proof.
  destruct l as [|x l]; [congruence|]. intros _ Hnum.
  assert (Hx : PrimFloat.is_nan x = false) by (apply Hnum; now left).
  apply (@min_element_from_first_binary64 l [x] 0 x); auto.
  - intros y Hy. apply Hnum. now right.
  - intros [|[|j]] y Hy; simpl in Hy; try discriminate.
    injection Hy as <-. now apply float_le_refl.
  - intros j y Hj. lia.
Qed.

(** C4.  In binary64, the arithmetic of the program, and however [pow],
    [+] and [-] round: every round entered with an uncovered node and in
    which no candidate cost is NaN selects the candidate at position
    [indexMin]; its cost is less than or equal to the cost of every
    candidate of both pools, every candidate enumerated before it is
    strictly more expensive, and the enumeration puts the transmitting
    candidates first (origin by origin, each against the uncovered nodes
    in stored order) and the relay candidates after them, laid out the same
    way.  That candidate is the one the round logs and covers. *)
Theorem selection_is_first_minimum (st : State float) :
  transmitting st <> [] -> uncovered st <> [] ->
  forallb cost_is_number (minPowersForAllNodes st) = true ->
  exists st' k sel,
    bip_round st = Some st'
    /\ k = indexMin (minPowersForAllNodes st)
    /\ nth_error (minPowersForAllNodes st) k = Some sel
    /\ (forall j c, nth_error (minPowersForAllNodes st) j = Some c ->
          PrimFloat.leb (c_cost sel) (c_cost c) = true)
    /\ (forall j c, j < k -> nth_error (minPowersForAllNodes st) j = Some c ->
          PrimFloat.ltb (c_cost sel) (c_cost c) = true)
    /\ (forall i j t u,
          nth_error (transmitting st) i = Some t ->
          nth_error (uncovered st) j = Some u ->
          nth_error (minPowersForAllNodes st) (i * length (uncovered st) + j)
          = Some (cand_tx t u))
    /\ (forall i j r u,
          nth_error (nontransmitting st) i = Some r ->
          nth_error (uncovered st) j = Some u ->
          nth_error (minPowersForAllNodes st)
            (length (transmitting st) * length (uncovered st)
             + (i * length (uncovered st) + j))
          = Some (cand_relay r u))
    /\ transmissionPath st' = transmissionPath st ++ [sel_row sel]
    /\ exists covered, nontransmitting st' = covered ++ [c_target sel].
Proof.
  intros Ht Hu Hnum.
  destruct (bip_round_some st Ht Hu) as (sel & Hsel & Hin).
  rewrite bip_round_eq, Hsel. cbn zeta.
  eexists _, (indexMin (minPowersForAllNodes st)), sel.
  split; [reflexivity|]. split; [reflexivity|]. split; [exact Hsel|].
  assert (Hne : map (@c_cost float) (minPowersForAllNodes st) <> [])
    by (destruct (minPowersForAllNodes st); [destruct Hin | discriminate]).
  assert (Hcosts : forall x,
            In x (map (@c_cost float) (minPowersForAllNodes st)) ->
            PrimFloat.is_nan x = false).
  { intros x Hx. apply in_map_iff in Hx. destruct Hx as (c & <- & Hc).
    rewrite forallb_forall in Hnum. apply Hnum in Hc.
    unfold cost_is_number in Hc. now apply negb_true_iff in Hc. }
  destruct (min_element_index_first_binary64 Hne Hcosts) as (vk & Hk & Hle & Hlt).
  rewrite <- indexMin_eq in Hk, Hlt. unfold selected in Hsel.
  rewrite nth_error_map, Hsel in Hk. injection Hk as <-.
  destruct (enumeration_order st) as [Htx Hrelay].
  repeat split; auto.
  - intros j c Hj. apply (Hle j). now rewrite nth_error_map, Hj.
  - intros j c Hjk Hj. apply (Hlt j); auto. now rewrite nth_error_map, Hj.
  - simpl. eauto.
Qed.

End SelectionBinary64.

Lemma selection_is_first_minimum_witness :
  exists st : State float,
    state_after 1 far_apart = Some st
    /\ transmitting st <> [] /\ uncovered st <> []
    /\ forallb cost_is_number (minPowersForAllNodes st) = true
    /\ exists st' k sel,
         bip_round st = Some st'
         /\ nth_error (minPowersForAllNodes st) k = Some sel
         /\ (forall j c, nth_error (minPowersForAllNodes st) j = Some c ->
               PrimFloat.leb (c_cost sel) (c_cost c) = true)
         /\ transmissionPath st' = transmissionPath st ++ [sel_row sel].
Proof.
  assert (Hi : exists st, state_after 1 far_apart = Some st)
    by (eexists; vm_compute; reflexivity).
  destruct Hi as (st & Hi).
  assert (Ht : transmitting st <> [])
    by (vm_compute in Hi; injection Hi as <-; discriminate).
  assert (Hu : uncovered st <> [])
    by (vm_compute in Hi; injection Hi as <-; discriminate).
  assert (Hnum : forallb cost_is_number (minPowersForAllNodes st) = true)
    by (vm_compute in Hi; injection Hi as <-; vm_compute; reflexivity).
  exists st. split; [exact Hi|]. split; [exact Ht|]. split; [exact Hu|].
  split; [exact Hnum|].
  destruct (selection_is_first_minimum Double_F64 (fun x y => eq_refl)
              st Ht Hu Hnum)
    as (st' & k & sel & Hr & _ & Hsel & Hle & _ & _ & _ & Hp & _).
  exists st', k, sel. split; [exact Hr|]. split; [exact Hsel|].
  split; [exact Hle | exact Hp].
Defined.

(** C4 as stated fails in binary64 on [overflowing], three finite nodes
    one unit or more apart.  Round 1 covers (2^600,0) from the source and
    stores the power [2^1200], which is infinity.  In round 2 the source
    reaches (2^600,1) at cost infinity - infinity, which is NaN, and the
    relay (2^600,0) reaches it at cost 1; [1 < NaN] is false, so
    [std::min_element] stays on the NaN stored first.  The selected cost
    is not less than or equal to the cost 1 of the other candidate, and
    the round logs NaN. *)
Lemma selection_keeps_nan :
  exists st st' sel c,
    separatedb overflowing = true
    /\ state_after 1 overflowing = Some st
    /\ reachable overflowing st
    /\ transmitting st = [mkTx 0 0 infinity]%float
    /\ nontransmitting st = [(0x1p+600, 0)]%float
    /\ uncovered st = [(0x1p+600, 1)]%float
    /\ map (@c_cost float) (minPowersForAllNodes st) = [nan; 1]%float
    /\ indexMin (minPowersForAllNodes st) = 0
    /\ selected st = Some sel
    /\ PrimFloat.is_nan (c_cost sel) = true
    /\ nth_error (minPowersForAllNodes st) 1 = Some c
    /\ c = cand_relay (0x1p+600, 0)%float (0x1p+600, 1)%float
    /\ c_cost c = 1%float
    /\ PrimFloat.leb (c_cost sel) (c_cost c) = false
    /\ bip_round st = Some st'
    /\ transmissionPath st' = transmissionPath st ++ [sel_row sel]
    /\ nontransmitting st' = [(0x1p+600, 0); (0x1p+600, 1)]%float.
Proof.
  assert (H1 : exists st, state_after 1 overflowing = Some st)
    by (eexists; vm_compute; reflexivity).
  destruct H1 as (st & H1).
  pose proof (state_after_reachable _ _ H1) as Hreach.
  vm_compute in H1. injection H1 as <-.
  match type of Hreach with reachable _ ?s => exists s end.
  do 3 eexists.
  split; [vm_compute; reflexivity|].
  split; [vm_compute; reflexivity|].
  split; [exact Hreach|].
  repeat split; vm_compute; reflexivity.
Qed.

(** ** Powers: exact arithmetic and binary64 *)

Lemma selected_least (st : State Q) sel :
  selected st = Some sel ->
  forall c, In c (minPowersForAllNodes st) -> (c_cost sel <= c_cost c)%Q.
Proof.
  unfold selected. intros Hsel c Hc.
  assert (Hne : map (@c_cost Q) (minPowersForAllNodes st) <> [])
    by (destruct (minPowersForAllNodes st); [destruct Hc | discriminate]).
  destruct (min_element_index_first Hne) as (vk & Hk & Hle & _).
  rewrite <- indexMin_eq, nth_error_map, Hsel in Hk. injection Hk as <-.
  destruct (In_nth_error _ _ Hc) as (j & Hj).
  apply (Hle j). now rewrite nth_error_map, Hj.
Qed.

Lemma cand_tx_in {num} `{Double num} (st : State num) t u :
  In t (transmitting st) -> In u (uncovered st) ->
  In (cand_tx t u) (minPowersForAllNodes st).
Proof.
  intros Ht Hu. rewrite minPowersForAllNodes_eq, in_app_iff. left.
  unfold tx_pool. apply in_flat_map. exists t. split; auto. now apply in_map.
Qed.

Lemma cand_relay_in {num} `{Double num} (st : State num) r u :
  In r (nontransmitting st) -> In u (uncovered st) ->
  In (cand_relay r u) (minPowersForAllNodes st).
Proof.
  intros Hr Hu. rewrite minPowersForAllNodes_eq, in_app_iff. right.
  unfold relay_pool. apply in_flat_map. exists r. split; auto. now apply in_map.
Qed.

Lemma Qsquare_nonneg (a : Q) : (0 <= a * a)%Q.
Proof.
  destruct (Qlt_le_dec a 0) as [Hneg|Hpos].
  - setoid_replace (a * a)%Q with ((- a) * (- a))%Q by ring.
    apply Qmult_le_0_compat; lra.
  - now apply Qmult_le_0_compat.
Qed.

Lemma dist2_nonneg x1 y1 x2 y2 : (0 <= dist2 x1 y1 x2 y2)%Q.
Proof.
  unfold dist2.
  pose proof (Qsquare_nonneg (x1 - x2)). pose proof (Qsquare_nonneg (y1 - y2)).
  lra.
Qed.

Lemma selected_cost_nonneg (st : State Q) sel :
  paid st -> selected st = Some sel -> (0 <= c_cost sel)%Q.
Proof.
  intros Hpaid Hsel.
  assert (Hin : In sel (minPowersForAllNodes st))
    by (eapply nth_error_In; exact Hsel).
  destruct (selected_origin st sel Hin)
    as [(t & u & Ht & Hu & ->)|(r & u & Hr & Hu & ->)]; simpl.
  - destruct (Hpaid t Ht) as [_ Hd]. specialize (Hd u Hu).
    unfold dist2 in Hd. lra.
  - apply dist2_nonneg.
Qed.

Lemma paid_round (st st' : State Q) :
  paid st -> bip_round st = Some st' -> paid st'.
Proof.
  intros Hpaid. rewrite bip_round_eq.
  destruct (selected st) as [sel|] eqn:Hsel; [|discriminate].
  intros [= <-]. cbn zeta.
  pose proof (selected_cost_nonneg Hpaid Hsel) as Hc.
  pose proof (selected_least _ Hsel) as Hleast.
  assert (Hin : In sel (minPowersForAllNodes st))
    by (eapply nth_error_In; exact Hsel).
  intros t'. cbn [transmitting uncovered]. rewrite in_app_iff.
  intros [Hold|Hnew].
  - unfold update_transmitting in Hold. apply in_map_iff in Hold.
    destruct Hold as (t & Et & Ht).
    destruct (Hpaid t Ht) as [Hp Hd].
    destruct (same_node (tx_point t) (c_source sel)); subst t'.
    + cbn [tx_power tx_x tx_y d_add Double_Q]. split; [lra|].
      intros u Hu. apply erase_skip_incl in Hu.
      pose proof (Hleast _ (cand_tx_in st t u Ht Hu)) as Hle.
      simpl in Hle. unfold dist2. lra.
    + split; [exact Hp|]. intros u Hu. apply erase_skip_incl in Hu. auto.
  - apply repeat_spec in Hnew. subst t'.
    cbn [sel_row tx_power tx_x tx_y]. split; [exact Hc|].
    intros u Hu. apply erase_skip_incl in Hu.
    destruct (selected_origin st sel Hin)
      as [(t & u0 & Ht & Hu0 & E)|(r & u0 & Hr & Hu0 & E)].
    + pose proof (Hleast _ (cand_tx_in st t u Ht Hu)) as Hle.
      destruct (Hpaid t Ht) as [Hp _].
      subst sel. simpl in *. unfold dist2. lra.
    + pose proof (Hleast _ (cand_relay_in st r u Hr Hu)) as Hle.
      subst sel. simpl in *. unfold dist2. lra.
Qed.

Lemma reachable_paid (locations : list (Point Q)) st :
  reachable locations st -> paid st.
Proof.
  induction 1 as [st Hi|st st' _ IH _ Hr].
  - destruct locations as [|src rest]; [discriminate|].
    rewrite bip_init_cons in Hi. injection Hi as <-.
    intros t [<-|[]]. simpl. split; [lra|].
    intros u _. apply dist2_nonneg.
  - eapply paid_round; eauto.
Qed.

Lemma reachable_transmitting {num} `{Double num}
    (locations : list (Point num)) st :
  reachable locations st -> transmitting st <> [].
Proof.
  induction 1 as [st Hi|st st' _ IH _ Hr].
  - destruct locations as [|src rest]; [discriminate|].
    rewrite bip_init_cons in Hi. injection Hi as <-. discriminate.
  - rewrite bip_round_eq in Hr.
    destruct (selected st) as [sel|]; [|discriminate].
    injection Hr as <-. cbn [transmitting].
    destruct (transmitting st); [congruence|]. discriminate.
Qed.

(** C1, amended.  Under exact arithmetic every round entered with an
    uncovered node has a winning candidate of non-negative cost, so the
    update of line 149 leaves every transmitting row at or above its
    previous power, at the same position and with the same coordinates. *)
Theorem power_never_decreases_exact (locations : list (Point Q)) (st : State Q) :
  reachable locations st -> uncovered st <> [] ->
  exists sel st',
    bip_round st = Some st'
    /\ selected st = Some sel /\ (0 <= c_cost sel)%Q
    /\ forall i t, nth_error (transmitting st) i = Some t ->
         exists t', nth_error (transmitting st') i = Some t'
           /\ tx_point t' = tx_point t
           /\ (tx_power t <= tx_power t')%Q.
Proof.
  intros Hreach Hu.
  pose proof (reachable_transmitting Hreach) as Ht.
  apply reachable_paid in Hreach.
  destruct (bip_round_some st Ht Hu) as (sel & Hsel & _).
  rewrite bip_round_eq, Hsel. cbn zeta.
  pose proof (selected_cost_nonneg Hreach Hsel) as Hc.
  exists sel. eexists. split; [reflexivity|]. split; [reflexivity|].
  split; [exact Hc|].
  intros i t Hi. cbn [transmitting].
  assert (Hlen : i < length (transmitting st))
    by (apply nth_error_Some; congruence).
  rewrite nth_error_app1
    by (unfold update_transmitting; now rewrite length_map).
  unfold update_transmitting. rewrite nth_error_map, Hi. simpl.
  eexists. split; [reflexivity|].
  destruct (same_node (tx_point t) (c_source sel)); simpl.
  - split; [reflexivity | lra].
  - split; [reflexivity | lra].
Qed.

Lemma power_never_decreases_exact_witness :
  exists st : State Q,
    reachable (line3 inject_Z) st /\ uncovered st <> []
    /\ exists sel st', bip_round st = Some st'
         /\ selected st = Some sel /\ (0 <= c_cost sel)%Q.
Proof.
  assert (Hi : exists st, bip_init (line3 inject_Z) = Some st)
    by (eexists; vm_compute; reflexivity).
  destruct Hi as (st & Hi).
  assert (Hreach : reachable (line3 inject_Z) st) by (apply reach_init; exact Hi).
  assert (Hu : uncovered st <> [])
    by (vm_compute in Hi; injection Hi as <-; discriminate).
  exists st. split; [exact Hreach|]. split; [exact Hu|].
  destruct (power_never_decreases_exact Hreach Hu)
    as (sel & st' & Hr & Hsel & Hc & _).
  exists sel, st'. split; [exact Hr|]. split; [exact Hsel | exact Hc].
Defined.

(** C1 as stated fails in binary64 on [equidistant_far]: round 2 raises
    the source's power to 54043197308037200, one unit in the last place
    above the squared distance 54043197308037192 of both far nodes, and
    round 3 adds the winning cost -8 to it. *)
Lemma power_decreases_binary64 :
  exists st st' t t',
    state_after 2 equidistant_far = Some st
    /\ reachable equidistant_far st
    /\ bip_round st = Some st'
    /\ selected st = Some (mkCand (-8) 0 0 (-232471928) 3)%float
    /\ nth_error (transmitting st) 0 = Some t
    /\ nth_error (transmitting st') 0 = Some t'
    /\ tx_power t = 54043197308037200%float
    /\ tx_power t' = 54043197308037192%float
    /\ PrimFloat.ltb (tx_power t') (tx_power t) = true.
Proof.
  assert (H2 : exists st, state_after 2 equidistant_far = Some st)
    by (eexists; vm_compute; reflexivity).
  destruct H2 as (st & H2).
  pose proof (state_after_reachable _ _ H2) as Hreach.
  vm_compute in H2. injection H2 as <-.
  match type of Hreach with reachable _ ?s => exists s end.
  do 3 eexists.
  split; [vm_compute; reflexivity|].
  split; [exact Hreach|].
  repeat split; vm_compute; reflexivity.
Qed.

(** ** Total cost against the logged increments *)

Section PathSum.
Context {num : Type} `{Double num}.

Lemma bip_loop_reachable (locations : list (Point num)) fuel : forall st0 st,
  reachable locations st0 -> bip_loop fuel st0 = inl st ->
  reachable locations st /\ uncovered st = [].
Proof.
  induction fuel as [|fuel IH]; intros st0 st Hreach; simpl.
  - destruct (uncovered st0) eqn:E; [|discriminate].
    intros [= <-]. auto.
  - destruct (uncovered st0) eqn:E; [intros [= <-]; auto|].
    destruct (bip_round st0) as [st1|] eqn:Hr; [|discriminate].
    apply IH. eapply reach_round; eauto. congruence.
Qed.

Lemma bip_reachable (locations : list (Point num)) fuel st :
  bip fuel locations = inl st -> reachable locations st /\ uncovered st = [].
Proof.
  unfold bip. destruct (bip_init locations) as [st0|] eqn:Hi; [|discriminate].
  apply bip_loop_reachable. now apply reach_init.
Qed.

End PathSum.

Lemma Qsum_from (l : list (TxRow Q)) : forall a,
  (fold_left (fun s e => s + tx_power e) l a
   == a + fold_left (fun s e => s + tx_power e) l 0)%Q.
Proof.
  induction l as [|e l IH]; intros a; simpl.
  - ring.
  - rewrite (IH (a + tx_power e)%Q), (IH (0 + tx_power e)%Q). ring.
Qed.

Lemma total_app (l1 l2 : list (TxRow Q)) :
  (totalBroadcastCost (l1 ++ l2)
   == totalBroadcastCost l1 + totalBroadcastCost l2)%Q.
Proof.
  unfold totalBroadcastCost. simpl. rewrite fold_left_app. apply Qsum_from.
Qed.

Lemma total_cons (e : TxRow Q) l :
  (totalBroadcastCost (e :: l) == tx_power e + totalBroadcastCost l)%Q.
Proof.
  unfold totalBroadcastCost. simpl. rewrite Qsum_from. ring.
Qed.

Lemma total_nil : (totalBroadcastCost (@nil (TxRow Q)) == 0)%Q.
Proof. reflexivity. Qed.

(** On a separated state a round adds its winning cost to exactly one
    transmitting row, old or new. *)
Lemma total_cost_round (st : State Q) :
  separated (all_points st) -> transmitting st <> [] -> uncovered st <> [] ->
  exists sel st',
    bip_round st = Some st' /\ selected st = Some sel
    /\ (totalBroadcastCost (transmitting st')
        == totalBroadcastCost (transmitting st) + c_cost sel)%Q
    /\ (sum_of_increments (transmissionPath st')
        == sum_of_increments (transmissionPath st) + c_cost sel)%Q.
Proof.
  intros Hsep Ht Hu.
  destruct (round_separated st Hsep Ht Hu)
    as (sel & st' & u1 & u2 & Hr & Hsel & _ & _ & Ep & _ & Hcase).
  exists sel, st'. split; [exact Hr|]. split; [exact Hsel|]. split.
  - destruct Hcase as [(t & t1 & t2 & -> & _ & -> & _)|(_ & _ & _ & _ & -> & _)].
    + rewrite !total_app, !total_cons. simpl. ring.
    + rewrite total_app, total_cons, total_nil. simpl. ring.
  - rewrite Ep. change (@sum_of_increments Q _) with (@totalBroadcastCost Q _).
    rewrite total_app, total_cons, total_nil. simpl. ring.
Qed.

Lemma reachable_total (locations : list (Point Q)) st :
  separated locations -> reachable locations st ->
  (totalBroadcastCost (transmitting st)
   == sum_of_increments (transmissionPath st))%Q.
Proof.
  intros Hsep Hreach.
  induction Hreach as [st Hi|st st' Hreach IH Hu Hr].
  - destruct locations as [|src rest]; [discriminate|].
    rewrite bip_init_cons in Hi. injection Hi as <-.
    unfold totalBroadcastCost, sum_of_increments. simpl. ring.
  - pose proof (reachable_inv Hsep Hreach) as [Hperm Htx _ _].
    assert (Hsep' : separated (all_points st))
      by (eapply separated_perm; [symmetry|]; eauto).
    destruct (total_cost_round st Hsep' Htx Hu) as (sel & st'' & Hr' & _ & E1 & E2).
    assert (st'' = st') by congruence. subst st''.
    rewrite E1, E2, IH. reflexivity.
Qed.

(** C9, amended.  Under exact arithmetic, and when the tolerance test tells
    all input nodes apart, the loop terminates and the sum of the powers of
    the transmitting rows at termination equals the sum of the increments
    in the path log. *)
Theorem total_cost_is_sum_of_increments (locations : list (Point Q)) fuel :
  separatedb locations = true -> locations <> [] ->
  length locations - 1 <= fuel ->
  exists st,
    bip fuel locations = inl st
    /\ uncovered st = []
    /\ (totalBroadcastCost (transmitting st)
        == sum_of_increments (transmissionPath st))%Q.
Proof.
  intros Hsep Hne Hfuel. apply separatedb_separated in Hsep.
  destruct locations as [|src rest]; [congruence|].
  assert (Hinit := bip_init_cons src rest).
  assert (Hinv := inv_init _ Hinit).
  destruct (bip_loop_separated (fuel := fuel) Hsep Hinv) as (st & Hl & _ & Hu).
  { simpl in *. lia. }
  assert (Hb : bip fuel (src :: rest) = inl st)
    by (unfold bip; now rewrite Hinit).
  exists st. split; [exact Hb|]. split; [exact Hu|].
  destruct (bip_reachable (src :: rest) fuel Hb) as [Hreach _].
  exact (reachable_total Hsep Hreach).
Qed.

Lemma total_cost_is_sum_of_increments_witness :
  separatedb (line3 inject_Z) = true /\ line3 inject_Z <> []
  /\ length (line3 inject_Z) - 1 <= 2
  /\ exists st, bip 2 (line3 inject_Z) = inl st
       /\ (totalBroadcastCost (transmitting st)
           == sum_of_increments (transmissionPath st))%Q.
Proof.
  assert (Hs : separatedb (line3 inject_Z) = true) by (vm_compute; reflexivity).
  assert (Hn : line3 inject_Z <> []) by (unfold line3; discriminate).
  assert (Hf : length (line3 inject_Z) - 1 <= 2) by (simpl; lia).
  split; [exact Hs|]. split; [exact Hn|]. split; [exact Hf|].
  destruct (total_cost_is_sum_of_increments (locations := line3 inject_Z) Hs Hn Hf)
    as (st & Hb & _ & Ht).
  exists st. split; [exact Hb | exact Ht].
Defined.

(** C9 as stated fails in binary64.  On [twin_source] the winning cost of
    round 2 is added to the source, which passes the tolerance test against
    its neighbour, and is also the starting power of the promoted
    neighbour, so it is counted twice.  On [far_apart], where the input is
    separated, the two sums are rounded differently. *)
Lemma total_cost_differs :
  (exists st, bip 2 twin_source = inl st
     /\ totalBroadcastCost (transmitting st) = 0x1.fff0003p+0%float
     /\ sum_of_increments (transmissionPath st) = 0x1.fff0004p-1%float
     /\ totalBroadcastCost (transmitting st)
        <> sum_of_increments (transmissionPath st))
  /\ (exists st, bip 3 far_apart = inl st
     /\ separatedb far_apart = true
     /\ totalBroadcastCost (transmitting st) = 15300000160000024%float
     /\ sum_of_increments (transmissionPath st) = 15300000160000026%float
     /\ totalBroadcastCost (transmitting st)
        <> sum_of_increments (transmissionPath st)).
Proof.
  split; eexists; repeat split; try (vm_compute; reflexivity).
  - refine (proj2 (float_lt_neq _ _)); vm_compute; reflexivity.
  - refine (proj1 (float_lt_neq _ _)); vm_compute; reflexivity.
Qed.

(** ** The worked examples *)

(** C5.  On [(0,0), (3,4)] the loop runs one round: the source ends up
    transmitting with power 25, (3,4) is covered and does not transmit,
    the total cost is 25 and the path log is the single entry "source,
    +25".  Both under exact arithmetic and in binary64. *)
Theorem two_node_run :
  (exists st : State Q,
     bip 1 [(0, 0); (3, 4)]%Q = inl st
     /\ round st = 1%Z
     /\ transmitting st = [mkTx 0 0 25]%Q
     /\ nontransmitting st = [(3, 4)]%Q
     /\ uncovered st = []
     /\ transmissionPath st = [mkTx 0 0 25]%Q
     /\ totalBroadcastCost (transmitting st) = 25%Q)
  /\ (exists st : State float,
     bip 1 [(0, 0); (3, 4)]%float = inl st
     /\ round st = 1%Z
     /\ transmitting st = [mkTx 0 0 25]%float
     /\ nontransmitting st = [(3, 4)]%float
     /\ uncovered st = []
     /\ transmissionPath st = [mkTx 0 0 25]%float
     /\ totalBroadcastCost (transmitting st) = 25%float).
Proof.
  split; eexists; repeat split; vm_compute; reflexivity.
Qed.

(** C6.  On [(0,0), (1,0), (2,0)] round 1 covers (1,0) from the source at
    cost 1; in round 2 the candidates are the source at marginal cost 3 and
    the relay (1,0) at cost 1, and the relay wins; the loop ends with
    transmitting rows (0,0) and (1,0), both at power 1, total cost 2 and
    path log "(0,0) +1, (1,0) +1".  Both under exact arithmetic and in
    binary64. *)
Theorem three_node_line_run :
  (exists st1 st2 : State Q,
     state_after 1 [(0, 0); (1, 0); (2, 0)]%Q = Some st1
     /\ transmitting st1 = [mkTx 0 0 1]%Q
     /\ nontransmitting st1 = [(1, 0)]%Q
     /\ uncovered st1 = [(2, 0)]%Q
     /\ transmissionPath st1 = [mkTx 0 0 1]%Q
     /\ minPowersForAllNodes st1 = [mkCand 3 0 0 2 0; mkCand 1 1 0 2 0]%Q
     /\ indexMin (minPowersForAllNodes st1) = 1
     /\ bip 2 [(0, 0); (1, 0); (2, 0)]%Q = inl st2
     /\ round st2 = 2%Z
     /\ transmitting st2 = [mkTx 0 0 1; mkTx 1 0 1]%Q
     /\ nontransmitting st2 = [(2, 0)]%Q
     /\ uncovered st2 = []
     /\ transmissionPath st2 = [mkTx 0 0 1; mkTx 1 0 1]%Q
     /\ totalBroadcastCost (transmitting st2) = 2%Q)
  /\ (exists st1 st2 : State float,
     state_after 1 [(0, 0); (1, 0); (2, 0)]%float = Some st1
     /\ transmitting st1 = [mkTx 0 0 1]%float
     /\ nontransmitting st1 = [(1, 0)]%float
     /\ uncovered st1 = [(2, 0)]%float
     /\ transmissionPath st1 = [mkTx 0 0 1]%float
     /\ minPowersForAllNodes st1 = [mkCand 3 0 0 2 0; mkCand 1 1 0 2 0]%float
     /\ indexMin (minPowersForAllNodes st1) = 1
     /\ bip 2 [(0, 0); (1, 0); (2, 0)]%float = inl st2
     /\ round st2 = 2%Z
     /\ transmitting st2 = [mkTx 0 0 1; mkTx 1 0 1]%float
     /\ nontransmitting st2 = [(2, 0)]%float
     /\ uncovered st2 = []
     /\ transmissionPath st2 = [mkTx 0 0 1; mkTx 1 0 1]%float
     /\ totalBroadcastCost (transmitting st2) = 2%float).
Proof.
  split; do 2 eexists; repeat split; vm_compute; reflexivity.
Qed.

(** ** Near-by nodes *)

(** C10.  There is an input with two distinct uncovered nodes that differ
    by less than 0.0001 on both axes on which one round erases two rows of
    [uncovered], and the loop is over after fewer than [N - 1] rounds. *)
Theorem one_round_erases_two :
  exists (locations : list (Point float)) (p q : Point float) st0 st1 st,
    bip_init locations = Some st0
    /\ In p (uncovered st0) /\ In q (uncovered st0) /\ p <> q
    /\ doubleEquals (fst p) (fst q) = true
    /\ doubleEquals (snd p) (snd q) = true
    /\ bip_round st0 = Some st1
    /\ length (uncovered st0) = 3 /\ length (uncovered st1) = 1
    /\ bip 2 locations = inl st
    /\ (round st < Z.of_nat (length locations) - 1)%Z
    /\ length (transmissionPath st) < length locations - 1.
Proof.
  exists twin_above, (2, 0)%float, (2, 0.00006103515625)%float.
  do 3 eexists.
  split; [vm_compute; reflexivity|].
  split; [simpl; auto|]. split; [simpl; auto|].
  split.
  { intros E. apply (f_equal snd) in E. simpl in E.
    revert E. refine (proj1 (float_lt_neq _ _)); vm_compute; reflexivity. }
  repeat split; vm_compute; reflexivity.
Qed.

(** ** The driver *)

Section Driver.
Context {num : Type} `{Double num}.
Variable stod : string -> option num.
Variable fs : string -> option (list string).

(** C8.  With an argument count other than 2, [main] prints the usage line
    and an end-of-line, returns -1, and does nothing else: in particular it
    opens no file. *)
Theorem usage_error (fuel : nat) (argv : list string) :
  length argv <> 2 ->
  main stod fuel fs argv
  = ([EvStr "Run the command: ./a.out locations.txt"; EvEndl], Exit (-1))
  /\ forall path, ~ In (EvOpen path) (fst (main stod fuel fs argv)).
Proof.
  intros Hargc.
  assert (E : main stod fuel fs argv
              = ([EvStr "Run the command: ./a.out locations.txt"; EvEndl],
                 Exit (-1))).
  { unfold main.
    destruct (Z.eqb_spec (Z.of_nat (length argv)) 2) as [E|E]; [lia|].
    reflexivity. }
  split; [exact E|].
  intros path. rewrite E. simpl. intros [Hin|[Hin|[]]]; discriminate.
Qed.

(** C7.  A file that cannot be opened loads as the empty vector without
    any error; [main] then reads [locations[0]] past the end of that
    vector, the one access the program does not guard, and goes no
    further.  The same read on a non-empty vector succeeds. *)
Theorem unopened_file_reads_past_end (fuel : nat) (prog path : string) :
  fs path = None ->
  load stod (fs path) = inl []
  /\ bip_init (@nil (Point num)) = None
  /\ main stod fuel fs [prog; path] = ([EvOpen path], OutOfRange)
  /\ forall locations : list (Point num),
       locations <> [] -> exists st, bip_init locations = Some st.
Proof.
  intros Hfile.
  split; [now rewrite Hfile|]. split; [reflexivity|]. split.
  - unfold main. simpl. now rewrite Hfile.
  - intros [|src rest] Hne; [congruence|].
    rewrite bip_init_cons. eauto.
Qed.

End Driver.

Lemma usage_error_witness :
  length ["./a.out"] <> 2
  /\ main (num := Q) (fun _ => None) 0 (fun _ => None) ["./a.out"]
     = ([EvStr "Run the command: ./a.out locations.txt"; EvEndl], Exit (-1)).
Proof.
  assert (Hargc : length ["./a.out"] <> 2) by (simpl; lia).
  split; [exact Hargc|].
  exact (proj1 (usage_error (num := Q) (fun _ => None) (fun _ => None) 0
                  ["./a.out"] Hargc)).
Defined.

Lemma unopened_file_reads_past_end_witness :
  (fun _ : string => @None (list string)) "missing.txt" = None
  /\ main (num := Q) (fun _ => None) 0 (fun _ => None) ["./a.out"; "missing.txt"]
     = ([EvOpen "missing.txt"], OutOfRange).
Proof.
  assert (Hfile : (fun _ : string => @None (list string)) "missing.txt" = None)
    by reflexivity.
  split; [exact Hfile|].
  exact (proj1 (proj2 (proj2
    (unopened_file_reads_past_end (num := Q) (fun _ => None) (fun _ => None) 0
       "./a.out" "missing.txt" Hfile)))).
Defined.

(** ** A run from a file *)

(** The whole program on a file holding the two nodes of the first worked
    example, with a blank line between them. *)
Example main_two_nodes_file :
  main stod_integer 1 (one_file ["(0,0)"; ""; "(3,4)"]) ["./a.out"; "locations.txt"]
  = ([EvOpen "locations.txt";
      EvStr "At the end of round "; EvInt 1; EvStr ":"; EvEndl;
      EvStr "Transmitting node: "; EvStr "Node ("; EvNum 0%Q; EvStr ",";
      EvNum 0%Q; EvStr ")"; EvStr ", with a power of: "; EvNum 25%Q; EvEndl;
      EvStr "======================== Final Results ========================";
      EvEndl;
      EvStr "Transmitting nodes (at the end): "; EvEndl;
      EvStr "Node ("; EvNum 0%Q; EvStr ", "; EvNum 0%Q; EvStr ")";
      EvStr ", transmitting with a power of: "; EvNum 25%Q; EvEndl;
      EvStr "Transmission path: "; EvEndl;
      EvStr "Stage"; EvInt 1; EvStr ": Node "; EvStr "("; EvNum 0%Q; EvStr ", ";
      EvNum 0%Q; EvStr ")"; EvStr ", increases its power by: "; EvNum 25%Q;
      EvEndl;
      EvStr "Total transmission cost is: "; EvNum 25%Q; EvEndl],
     Exit 0).
Proof. vm_compute. reflexivity. Qed.

(** A line without a comma is read twice, as both coordinates; a line that
    holds no number makes [std::stod] throw. *)
Example main_odd_lines :
  load stod_integer (Some ["(0,0)"; "(-3)"]) = inl [(0, 0); (-3, -3)]%Q
  /\ load stod_integer (Some ["(0,0)"; "x"]) = inr Uncaught.
Proof. split; vm_compute; reflexivity. Qed.

(** * Further properties of the code *)

(** ** Strings *)

Lemma string_length_append (a b : string) :
  String.length (String.append a b) = String.length a + String.length b.
Proof. induction a as [|c a IH]; simpl; auto. Qed.

Lemma substring_prefix (a b : string) :
  substring 0 (String.length a) (String.append a b) = a.
Proof.
  induction a as [|c a IH]; simpl.
  - destruct b; reflexivity.
  - now rewrite IH.
Qed.

Lemma substring_all (a : string) : substring 0 (String.length a) a = a.
Proof.
  induction a as [|c a IH]; simpl; [reflexivity | now rewrite IH].
Qed.

Lemma substring_skip (a b : string) n :
  substring (String.length a) n (String.append a b) = substring 0 n b.
Proof. induction a as [|c a IH]; simpl; auto. Qed.

Lemma find_comma_append (a b : string) :
  find_comma a = None ->
  find_comma (String.append a (String ","%char b)) = Some (String.length a).
Proof.
  induction a as [|c a IH]; simpl.
  - reflexivity.
  - destruct (Ascii.eqb c ","%char); [discriminate|].
    destruct (find_comma a); [discriminate|].
    intros _. now rewrite IH.
Qed.

Lemma find_comma_bound (s : string) k :
  find_comma s = Some k -> k < String.length s.
Proof.
  revert k; induction s as [|c s IH]; simpl; [discriminate|].
  destruct (Ascii.eqb c ","%char).
  - intros k [= <-]. lia.
  - destruct (find_comma s) as [j|]; [|discriminate].
    intros k [= <-]. specialize (IH j eq_refl). lia.
Qed.

(** ** The loader, line by line *)

Section Lines.
Context {num : Type}.
Variable stod : string -> option num.

Lemma strip_enclosed c1 inner c2 :
  let line := enclose c1 inner c2 in
  substr 1 (if String.length line <? 2 then None
            else Some (String.length line - 2)) line = inner.
Proof.
  unfold enclose. cbn [String.length].
  rewrite string_length_append. cbn [String.length].
  replace (S (String.length inner + 1) <? 2) with false
    by (symmetry; apply Nat.ltb_ge; lia).
  unfold substr. cbn [String.length].
  rewrite string_length_append. cbn [String.length].
  replace (Nat.min (S (String.length inner + 1) - 2)
             (S (String.length inner + 1) - 1))
    with (String.length inner) by lia.
  cbn [substring]. apply substring_prefix.
Qed.

(** X1.  A line [c1 a , b c2], where [a] holds no comma, is read as the
    pair ([stod a], [stod b]), whatever the first and last characters are;
    it fails exactly when one of the two conversions throws. *)
Theorem parse_line_pair (c1 c2 : ascii) (a b : string) :
  find_comma a = None ->
  parse_line stod (enclose c1 (String.append a (String ","%char b)) c2)
  = match stod a, stod b with
    | Some i, Some j => Some (i, j)
    | _, _ => None
    end.
Proof.
  intros Ha. unfold parse_line.
  rewrite strip_enclosed, (find_comma_append _ b Ha).
  unfold substr. rewrite string_length_append. cbn [String.length].
  rewrite Nat.sub_0_r.
  replace (Nat.min (String.length a) (String.length a + S (String.length b)))
    with (String.length a) by lia.
  rewrite substring_prefix.
  replace (String.length a + S (String.length b) - (String.length a + 1))
    with (String.length b) by lia.
  replace (String.length a + 1) with (String.length (String.append a ","))
    by (rewrite string_length_append; reflexivity).
  replace (String.append a (String ","%char b))
    with (String.append (String.append a ",") b)
    by (clear; induction a as [|c a IH]; simpl; [reflexivity | now rewrite IH]).
  rewrite substring_skip, substring_all.
  destruct (stod a); [|reflexivity]. destruct (stod b); reflexivity.
Qed.

(** X2.  A line whose text between the first and last character holds no
    comma is read twice: [find] returns [npos], the first [substr] takes
    everything and [npos + 1] wraps around to position 0, so both
    coordinates are the conversion of the same text. *)
Theorem parse_line_without_comma (c1 c2 : ascii) (inner : string) :
  find_comma inner = None ->
  parse_line stod (enclose c1 inner c2)
  = match stod inner with
    | Some v => Some (v, v)
    | None => None
    end.
Proof.
  intros Hc. unfold parse_line.
  rewrite strip_enclosed, Hc.
  unfold substr. rewrite !Nat.sub_0_r, substring_all.
  destruct (stod inner); reflexivity.
Qed.

(** X3.  A line of one or two characters is read as the empty text: on a
    one-character line [line.size () - 2] wraps around, on a two-character
    line it is 0, and [std::stod] is called on [""] for both coordinates. *)
Theorem parse_line_short (line : string) :
  0 < String.length line <= 2 ->
  parse_line stod line
  = match stod EmptyString with
    | Some v => Some (v, v)
    | None => None
    end.
Proof.
  intros Hlen.
  destruct line as [|c1 [|c2 [|c3 rest]]]; cbn [String.length] in Hlen; try lia.
  - unfold parse_line. cbn. destruct (stod EmptyString); reflexivity.
  - unfold parse_line. cbn. destruct (stod EmptyString); reflexivity.
Qed.

Lemma read_lines_spec (lines : list string) : forall acc pts,
  read_lines stod lines acc = inl pts <->
  exists new, pts = acc ++ new
    /\ map (parse_line stod) (filter nonempty_line lines) = map Some new.
Proof.
  induction lines as [|line lines IH]; intros acc pts; cbn [read_lines filter].
  - split.
    + intros [= <-]. exists []. now rewrite app_nil_r.
    + intros (new & -> & E). destruct new; [|discriminate].
      now rewrite app_nil_r.
  - unfold nonempty_line at 1.
    destruct (String.length line =? 0); cbn [negb].
    + apply IH.
    + destruct (parse_line stod line) as [p|] eqn:Hp.
      * rewrite IH. unfold push_back. cbn [map]. rewrite Hp. split.
        { intros (new & -> & E). exists (p :: new).
          rewrite <- app_assoc. cbn. now rewrite E. }
        { intros (new & -> & E). destruct new as [|q new]; [discriminate|].
          injection E as <- E. exists new. now rewrite <- app_assoc. }
      * split; [discriminate|].
        intros (new & _ & E). cbn [map] in E. rewrite Hp in E.
        destruct new; discriminate.
Qed.

(** X4.  [load] returns a vector exactly when every non-empty line of the
    file converts, and the vector then holds the converted lines in file
    order, one row per non-empty line: blank lines leave no trace. *)
Theorem load_spec (lines : list string) (pts : list (Point num)) :
  load stod (Some lines) = inl pts <->
  map (parse_line stod) (filter nonempty_line lines) = map Some pts.
Proof.
  unfold load. rewrite read_lines_spec. cbn [app]. split.
  - intros (new & -> & E). exact E.
  - intros E. eauto.
Qed.

Lemma read_lines_throws (lines : list string) line : forall acc,
  In line lines -> nonempty_line line = true -> parse_line stod line = None ->
  read_lines stod lines acc = inr Uncaught.
Proof.
  induction lines as [|l lines IH]; intros acc Hin Hne Hp; [destruct Hin|].
  cbn [read_lines].
  destruct (String.length l =? 0) eqn:El.
  - destruct Hin as [->|Hin]; [|now apply IH].
    unfold nonempty_line in Hne. rewrite El in Hne. discriminate.
  - destruct Hin as [->|Hin].
    + now rewrite Hp.
    + destruct (parse_line stod l); [now apply IH | reflexivity].
Qed.

End Lines.

Lemma parse_line_pair_witness :
  find_comma "3" = None
  /\ parse_line stod_integer (enclose "("%char "3,4" ")"%char) = Some (3, 4)%Q.
Proof.
  assert (Hc : find_comma "3" = None) by reflexivity.
  split; [exact Hc|].
  exact (parse_line_pair stod_integer "("%char ")"%char "3" "4" Hc).
Defined.

Lemma parse_line_without_comma_witness :
  find_comma "-3" = None
  /\ parse_line stod_integer (enclose "("%char "-3" ")"%char) = Some (-3, -3)%Q.
Proof.
  assert (Hc : find_comma "-3" = None) by reflexivity.
  split; [exact Hc|].
  exact (parse_line_without_comma stod_integer "("%char ")"%char "-3" Hc).
Defined.

Lemma parse_line_short_witness :
  0 < String.length "()" <= 2 /\ parse_line stod_integer "()" = None.
Proof.
  assert (Hl : 0 < String.length "()" <= 2) by (simpl; lia).
  split; [exact Hl|].
  exact (parse_line_short stod_integer "()" Hl).
Defined.

(** ** The driver on files *)

Section Files.
Context {num : Type} `{Double num}.
Variable stod : string -> option num.
Variable fs : string -> option (list string).

(** X5.  When some non-empty line of the file does not convert, the
    exception leaves [main] before anything is printed: the run consists
    of opening the file, whatever the other lines hold. *)
Theorem main_uncaught (fuel : nat) (prog path : string) lines line :
  fs path = Some lines ->
  In line lines -> nonempty_line line = true ->
  parse_line stod line = None ->
  main stod fuel fs [prog; path] = ([EvOpen path], Uncaught).
Proof.
  intros Hfile Hin Hne Hp. unfold main. cbn.
  rewrite Hfile. unfold load.
  now rewrite (read_lines_throws stod lines line [] Hin Hne Hp).
Qed.

(** X6.  On a file that holds one node the loop body never runs: [main]
    prints only the final report, with that node transmitting at power
    [0], an empty transmission path and the total cost [0 + 0], and
    returns 0. *)
Theorem main_single_node (fuel : nat) (prog path : string) lines p :
  fs path = Some lines ->
  load stod (Some lines) = inl [p] ->
  main stod fuel fs [prog; path]
  = ([EvOpen path;
      EvStr "======================== Final Results ========================";
      EvEndl;
      EvStr "Transmitting nodes (at the end): "; EvEndl;
      EvStr "Node ("; EvNum (fst p); EvStr ", "; EvNum (snd p); EvStr ")";
      EvStr ", transmitting with a power of: "; EvNum d_zero; EvEndl;
      EvStr "Transmission path: "; EvEndl;
      EvStr "Total transmission cost is: "; EvNum (d_add d_zero d_zero);
      EvEndl],
     Exit 0).
Proof.
  intros Hfile Hload. unfold main. cbn.
  rewrite Hfile, Hload, bip_init_cons.
  destruct fuel; reflexivity.
Qed.

(** X7.  When the file opens, every non-empty line converts, at least one
    node is read and every node passes the tolerance test against itself,
    [main] returns 0 for every fuel of at least [N - 1]: it opens the
    file, prints the progress of at most [N - 1] rounds and then the final
    report of a state with no uncovered node. *)
Theorem main_succeeds (fuel : nat) (prog path : string) lines locations :
  fs path = Some lines ->
  load stod (Some lines) = inl locations ->
  locations <> [] ->
  forallb (fun p => same_node p p) locations = true ->
  length locations - 1 <= fuel ->
  exists st,
    main stod fuel fs [prog; path]
    = (EvOpen path :: stdout st ++ report_final st, Exit 0)
    /\ reachable locations st
    /\ uncovered st = []
    /\ (round st <= Z.of_nat (length locations) - 1)%Z.
Proof.
  intros Hfile Hload Hne Hself Hfuel.
  destruct locations as [|src rest]; [congruence|].
  assert (Hinit := bip_init_cons src rest).
  destruct (@bip_loop_terminates _ _ (length rest) fuel
              (mkState [mkTx (fst src) (snd src) d_zero] [] rest [] 0%Z []))
    as (st & Hl & [_ _ Hr Hc] & Hu).
  - split; cbn; try (discriminate || lia || reflexivity).
    intros u Hu. rewrite forallb_forall in Hself. apply Hself. simpl; auto.
  - simpl in *. lia.
  - exists st. split; [|split; [|split]].
    + unfold main. cbn. rewrite Hfile, Hload, Hinit, Hl. reflexivity.
    + eapply bip_loop_reachable; [|exact Hl]. now apply reach_init.
    + exact Hu.
    + rewrite Hr. rewrite Hu in Hc. cbn [length] in *. lia.
Qed.

End Files.

Lemma main_uncaught_witness :
  one_file ["(0,0)"; "x"] "locations.txt" = Some ["(0,0)"; "x"]
  /\ In "x" ["(0,0)"; "x"] /\ nonempty_line "x" = true
  /\ parse_line stod_integer "x" = None
  /\ main stod_integer 0 (one_file ["(0,0)"; "x"]) ["./a.out"; "locations.txt"]
     = ([EvOpen "locations.txt"], Uncaught).
Proof.
  assert (Hf : one_file ["(0,0)"; "x"] "locations.txt" = Some ["(0,0)"; "x"])
    by reflexivity.
  assert (Hin : In "x" ["(0,0)"; "x"]) by (simpl; auto).
  assert (Hne : nonempty_line "x" = true) by reflexivity.
  assert (Hp : parse_line stod_integer "x" = None) by reflexivity.
  repeat (split; [assumption|]).
  exact (main_uncaught stod_integer (one_file ["(0,0)"; "x"]) 0 "./a.out"
           "locations.txt" "x" Hf Hin Hne Hp).
Defined.

Lemma main_single_node_witness :
  one_file ["(7,-2)"] "locations.txt" = Some ["(7,-2)"]
  /\ load stod_integer (Some ["(7,-2)"]) = inl [(7, -2)%Q]
  /\ snd (main stod_integer 0 (one_file ["(7,-2)"]) ["./a.out"; "locations.txt"])
     = Exit 0.
Proof.
  assert (Hf : one_file ["(7,-2)"] "locations.txt" = Some ["(7,-2)"])
    by reflexivity.
  assert (Hl : load stod_integer (Some ["(7,-2)"]) = inl [(7, -2)%Q])
    by (vm_compute; reflexivity).
  split; [exact Hf|]. split; [exact Hl|].
  rewrite (main_single_node stod_integer (one_file ["(7,-2)"]) 0 "./a.out"
             "locations.txt" Hf Hl).
  reflexivity.
Defined.

Lemma main_succeeds_witness :
  one_file ["(0,0)"; "(1,0)"; ""; "(2,0)"] "locations.txt"
  = Some ["(0,0)"; "(1,0)"; ""; "(2,0)"]
  /\ load stod_integer (Some ["(0,0)"; "(1,0)"; ""; "(2,0)"])
     = inl (line3 inject_Z)
  /\ line3 inject_Z <> []
  /\ forallb (fun p => same_node p p) (line3 inject_Z) = true
  /\ length (line3 inject_Z) - 1 <= 2
  /\ snd (main stod_integer 2 (one_file ["(0,0)"; "(1,0)"; ""; "(2,0)"])
            ["./a.out"; "locations.txt"]) = Exit 0.
Proof.
  assert (Hf : one_file ["(0,0)"; "(1,0)"; ""; "(2,0)"] "locations.txt"
               = Some ["(0,0)"; "(1,0)"; ""; "(2,0)"]) by reflexivity.
  assert (Hl : load stod_integer (Some ["(0,0)"; "(1,0)"; ""; "(2,0)"])
               = inl (line3 inject_Z)) by (vm_compute; reflexivity).
  assert (Hn : line3 inject_Z <> []) by (unfold line3; discriminate).
  assert (Hs : forallb (fun p => same_node p p) (line3 inject_Z) = true)
    by (vm_compute; reflexivity).
  assert (Hfuel : length (line3 inject_Z) - 1 <= 2) by (simpl; lia).
  repeat (split; [assumption|]).
  destruct (main_succeeds stod_integer (one_file ["(0,0)"; "(1,0)"; ""; "(2,0)"])
              "./a.out" "locations.txt" Hf Hl Hn Hs Hfuel) as (st & Hm & _).
  now rewrite Hm.
Defined.

(** ** The vectors walked by the loop *)

Section Walks.
Variable A : Type.
Variable f : A -> bool.

Lemma erase_skip_filter (l : list A) :
  no_adjacentb f l = true ->
  erase_skip f l = filter (fun x => negb (f x)) l
  /\ erase_count f l = length (filter f l).
Proof.
  induction l as [|x|x y r IH1 IH2] using list_skip_ind.
  - auto.
  - intros _. simpl. destruct (f x); auto.
  - intros Hadj.
    assert (Hxy : negb (f x && f y) = true /\ no_adjacentb f (y :: r) = true)
      by (apply andb_true_iff; exact Hadj).
    destruct Hxy as [Hxy Hr].
    rewrite erase_skip_cons2, erase_count_cons2.
    cbn [filter]. destruct (f x) eqn:Ex; cbn [negb].
    + destruct (f y) eqn:Ey; [discriminate|]. cbn [negb].
      assert (Hr' : no_adjacentb f r = true).
      { destruct r as [|z r']; [reflexivity|].
        cbn [no_adjacentb] in Hr. apply andb_true_iff in Hr. apply Hr. }
      destruct (IH1 Hr') as [E1 E2]. rewrite E1, E2. auto.
    + destruct (IH2 Hr) as [E1 E2]. rewrite E1, E2.
      cbn [filter]. auto.
Qed.

Lemma erase_skip_steps_over (l1 : list A) a b l2 :
  (forall x, In x l1 -> f x = false) -> f a = true ->
  erase_skip f (l1 ++ a :: b :: l2) = l1 ++ b :: erase_skip f l2.
Proof.
  intros H1 Ha. induction l1 as [|x l1 IH]; cbn [app].
  - now rewrite erase_skip_cons2, Ha.
  - cbn [erase_skip]. rewrite (H1 x) by (simpl; auto).
    f_equal. apply IH. intros; apply H1; simpl; auto.
Qed.

End Walks.

Section Builder.
Context {num : Type} `{Double num}.

(** X8.  When no two neighbouring rows of [uncovered] are within the
    tolerance of the newly covered node, the walk of lines 169-173 removes
    exactly the rows within the tolerance and keeps the others in order;
    under the same condition on [nontransmitting] the walk of lines 155-162
    removes exactly the rows within the tolerance of the origin and pushes
    one transmitting row, at the winning cost, for each of them. *)
Theorem walks_filter (sel : Cand num) (unc ntx : list (Point num)) tx :
  no_adjacentb (from_target sel) unc = true ->
  no_adjacentb (from_source sel) ntx = true ->
  remove_covered sel unc = filter (fun u => negb (from_target sel u)) unc
  /\ promote sel ntx tx
     = (filter (fun r => negb (from_source sel r)) ntx,
        tx ++ repeat (sel_row sel) (length (filter (from_source sel) ntx))).
Proof.
  intros Hu Hn.
  rewrite remove_covered_eq, promote_eq.
  destruct (erase_skip_filter _ _ Hu) as [E1 _].
  destruct (erase_skip_filter _ _ Hn) as [E2 E3].
  fold (from_target sel). fold (from_source sel). fold (sel_row sel).
  now rewrite E1, E2, E3.
Qed.

(** X9.  The walk of lines 169-173 does not examine the row that follows
    an erased one: when the first row within the tolerance of the newly
    covered node is followed by a row [b], [b] stays in [uncovered],
    whether or not it is within the tolerance itself, and the walk resumes
    after it. *)
Theorem walk_steps_over (sel : Cand num) (l1 : list (Point num)) a b l2 :
  (forall u, In u l1 -> from_target sel u = false) ->
  from_target sel a = true ->
  remove_covered sel (l1 ++ a :: b :: l2) = l1 ++ b :: remove_covered sel l2.
Proof.
  intros H1 Ha. rewrite !remove_covered_eq.
  now apply erase_skip_steps_over.
Qed.

End Builder.

Lemma walks_filter_witness :
  no_adjacentb (from_target reach_1_0) [(1, 0); (2, 0); (1, 0)]%Q = true
  /\ no_adjacentb (from_source reach_1_0) [(0, 0)]%Q = true
  /\ remove_covered reach_1_0 [(1, 0); (2, 0); (1, 0)]%Q = [(2, 0)]%Q.
Proof.
  assert (Hu : no_adjacentb (from_target reach_1_0) [(1, 0); (2, 0); (1, 0)]%Q = true)
    by (vm_compute; reflexivity).
  assert (Hn : no_adjacentb (from_source reach_1_0) [(0, 0)]%Q = true)
    by (vm_compute; reflexivity).
  split; [exact Hu|]. split; [exact Hn|].
  refine (eq_trans (proj1 (walks_filter reach_1_0 [(1, 0); (2, 0); (1, 0)]%Q
                             [(0, 0)]%Q [] Hu Hn)) _).
  vm_compute. reflexivity.
Defined.

Lemma walk_steps_over_witness :
  (forall u, In u [(5, 0)%Q] -> from_target reach_1_0 u = false)
  /\ from_target reach_1_0 (1, 0)%Q = true
  /\ remove_covered reach_1_0 [(5, 0); (1, 0); (1, 0); (3, 0)]%Q
     = [(5, 0); (1, 0); (3, 0)]%Q.
Proof.
  assert (H1 : forall u, In u [(5, 0)%Q] -> from_target reach_1_0 u = false)
    by (intros u [<-|[]]; vm_compute; reflexivity).
  assert (Ha : from_target reach_1_0 (1, 0)%Q = true) by (vm_compute; reflexivity).
  split; [exact H1|]. split; [exact Ha|].
  pose proof (walk_steps_over reach_1_0 [(5, 0)%Q] (1, 0)%Q (1, 0)%Q
                [(3, 0)%Q] H1 Ha) as E.
  refine (eq_trans E _). vm_compute. reflexivity.
Defined.

(** ** What every round keeps *)

Section Kept.
Context {num : Type} `{Double num}.

(** X10.  In every round the loop enters, the position computed by
    [std::min_element] is inside [minPowersForAllNodes], so the reads of
    lines 139-171 are in range and the round completes. *)
Theorem round_reads_in_range (locations : list (Point num)) st :
  reachable locations st -> uncovered st <> [] ->
  indexMin (minPowersForAllNodes st) < length (minPowersForAllNodes st)
  /\ exists st', bip_round st = Some st'.
Proof.
  intros Hreach Hu.
  pose proof (reachable_transmitting Hreach) as Ht.
  destruct (bip_round_some st Ht Hu) as (sel & Hsel & _).
  split.
  - apply nth_error_Some. unfold selected in Hsel. congruence.
  - rewrite bip_round_eq, Hsel. eauto.
Qed.

Lemma round_transmitting st st' :
  bip_round st = Some st' ->
  exists sel k,
    selected st = Some sel
    /\ In sel (minPowersForAllNodes st)
    /\ k <= length (nontransmitting st)
    /\ map (@tx_point num) (transmitting st')
       = map (@tx_point num) (transmitting st) ++ repeat (c_source sel) k.
Proof.
  rewrite bip_round_eq.
  destruct (selected st) as [sel|] eqn:Hsel; [|discriminate].
  intros [= <-]. cbn [transmitting].
  exists sel, (erase_count (from_source sel) (nontransmitting st)).
  split; [reflexivity|]. split; [eapply nth_error_In; exact Hsel|]. split.
  - pose proof (erase_skip_length (from_source sel) (nontransmitting st)). lia.
  - rewrite map_app, update_transmitting_points, map_repeat. reflexivity.
Qed.

(** X11.  A round never removes, moves or relocates a transmitting row:
    the coordinates of the transmitting rows before the round are a prefix
    of those after it, and the rows added all carry the coordinates of the
    origin of the winning candidate. *)
Theorem transmitting_append_only st st' :
  bip_round st = Some st' ->
  exists sel k,
    selected st = Some sel
    /\ map (@tx_point num) (transmitting st')
       = map (@tx_point num) (transmitting st) ++ repeat (c_source sel) k.
Proof.
  intros Hr. destruct (round_transmitting _ Hr) as (sel & k & Hs & _ & _ & E).
  eauto.
Qed.

(** X12.  In every state of a run the first transmitting row carries the
    coordinates of the source [locations[0]]. *)
Theorem source_stays_first (locations : list (Point num)) st :
  reachable locations st ->
  exists src t rest,
    nth_error locations 0 = Some src
    /\ transmitting st = t :: rest /\ tx_point t = src.
Proof.
  induction 1 as [st Hi|st st' _ IH _ Hr].
  - destruct locations as [|src rest]; [discriminate|].
    rewrite bip_init_cons in Hi. injection Hi as <-.
    exists src. do 2 eexists. split; [reflexivity|]. split; [reflexivity|].
    destruct src; reflexivity.
  - destruct IH as (src & t & rest & Hsrc & Et & Ept).
    destruct (round_transmitting _ Hr) as (sel & k & _ & _ & _ & E).
    rewrite Et in E. cbn [map app] in E.
    destruct (transmitting st') as [|t' rest']; [discriminate|].
    cbn [map] in E.
    assert (Ept' : tx_point t' = tx_point t) by congruence.
    exists src, t', rest'. repeat split; auto. congruence.
Qed.

(** X13.  The loop never invents a node: in every state of a run, every
    transmitting, non-transmitting or uncovered row carries the
    coordinates of an input node. *)
Theorem nodes_come_from_input (locations : list (Point num)) st :
  reachable locations st ->
  forall p, In p (all_points st) -> In p locations.
Proof.
  induction 1 as [st Hi|st st' _ IH _ Hr].
  - destruct locations as [|src rest]; [discriminate|].
    rewrite bip_init_cons in Hi. injection Hi as <-.
    unfold all_points. cbn. intros p [<-|Hp]; [left; now destruct src | right; exact Hp].
  - intros p. unfold all_points in *.
    destruct (round_transmitting _ Hr) as (sel & k & Hsel & Hin & _ & E).
    assert (Hsrc : In (c_source sel)
                     (map (@tx_point num) (transmitting st) ++ nontransmitting st)
                   /\ In (c_target sel) (uncovered st)).
    { rewrite in_app_iff. clear E Hr Hsel.
      destruct (selected_origin st sel Hin)
        as [(t & [ux uy] & Ht & Hu & ->)|([rx ry] & [ux uy] & Hn & Hu & ->)].
      - split; [left; exact (in_map (@tx_point num) _ _ Ht) | exact Hu].
      - split; [right; exact Hn | exact Hu]. }
    rewrite E. rewrite bip_round_eq, Hsel in Hr. injection Hr as <-.
    cbn [nontransmitting uncovered].
    destruct Hsrc as [Hs Htg]. rewrite in_app_iff in Hs.
    rewrite !in_app_iff. intros [[Hp|Hp]|[[Hp|Hp]|Hp]]; apply IH; rewrite !in_app_iff.
    + auto.
    + apply repeat_spec in Hp. subst p. tauto.
    + apply erase_skip_incl in Hp. auto.
    + destruct Hp as [<-|[]]. auto.
    + apply erase_skip_incl in Hp. auto.
Qed.

Lemma reachable_tally (locations : list (Point num)) st :
  reachable locations st ->
  round st = Z.of_nat (length (transmissionPath st))
  /\ length (transmitting st) + length (nontransmitting st)
     = S (length (transmissionPath st)).
Proof.
  induction 1 as [st Hi|st st' _ IH _ Hr].
  - destruct locations as [|src rest]; [discriminate|].
    rewrite bip_init_cons in Hi. injection Hi as <-. auto.
  - destruct IH as [IHr IHc].
    rewrite bip_round_eq in Hr.
    destruct (selected st) as [sel|]; [|discriminate].
    injection Hr as <-.
    cbn [round transmissionPath transmitting nontransmitting].
    pose proof (erase_skip_length (from_source sel) (nontransmitting st)).
    unfold update_transmitting.
    rewrite !length_app, length_map, repeat_length. cbn [length].
    split; lia.
Qed.

(** X14.  In every state of a run the round counter equals the number of
    path entries, and the covered rows (transmitting and non-transmitting
    together) are one more than that: every round logs one entry and adds
    one covered row, whatever the tolerance test erases. *)
Theorem rounds_and_covered_rows (locations : list (Point num)) st :
  reachable locations st ->
  round st = Z.of_nat (length (transmissionPath st))
  /\ length (transmitting st) + length (nontransmitting st)
     = S (length (transmissionPath st)).
Proof. exact (@reachable_tally locations st). Qed.

End Kept.

Lemma round_reads_in_range_witness :
  exists st : State Q,
    reachable (line3 inject_Z) st /\ uncovered st <> []
    /\ exists st', bip_round st = Some st'.
Proof.
  assert (H1 : exists st, state_after 1 (line3 inject_Z) = Some st)
    by (eexists; vm_compute; reflexivity).
  destruct H1 as (st & H1).
  assert (Hreach : reachable (line3 inject_Z) st)
    by (exact (state_after_reachable _ _ H1)).
  assert (Hu : uncovered st <> [])
    by (vm_compute in H1; injection H1 as <-; discriminate).
  exists st. split; [exact Hreach|]. split; [exact Hu|].
  exact (proj2 (round_reads_in_range Hreach Hu)).
Defined.

Lemma transmitting_append_only_witness :
  exists st st' : State Q,
    bip_round st = Some st'
    /\ exists sel k,
         selected st = Some sel
         /\ map (@tx_point Q) (transmitting st')
            = map (@tx_point Q) (transmitting st) ++ repeat (c_source sel) k.
Proof.
  assert (H1 : exists st, state_after 1 (line3 inject_Z) = Some st)
    by (eexists; vm_compute; reflexivity).
  destruct H1 as (st & H1).
  assert (Hr : exists st', bip_round st = Some st').
  { vm_compute in H1. injection H1 as <-. eexists. vm_compute. reflexivity. }
  destruct Hr as (st' & Hr).
  exists st, st'. split; [exact Hr|].
  exact (transmitting_append_only st Hr).
Defined.

Lemma source_stays_first_witness :
  exists st : State Q,
    reachable (line3 inject_Z) st
    /\ exists src t rest,
         nth_error (line3 inject_Z) 0 = Some src
         /\ transmitting st = t :: rest /\ tx_point t = src.
Proof.
  assert (H2 : exists st, state_after 2 (line3 inject_Z) = Some st)
    by (eexists; vm_compute; reflexivity).
  destruct H2 as (st & H2).
  assert (Hreach : reachable (line3 inject_Z) st)
    by (exact (state_after_reachable _ _ H2)).
  exists st. split; [exact Hreach|].
  exact (source_stays_first Hreach).
Defined.

Lemma nodes_come_from_input_witness :
  exists st : State Q,
    reachable (line3 inject_Z) st
    /\ forall p, In p (all_points st) -> In p (line3 inject_Z).
Proof.
  assert (H2 : exists st, state_after 2 (line3 inject_Z) = Some st)
    by (eexists; vm_compute; reflexivity).
  destruct H2 as (st & H2).
  assert (Hreach : reachable (line3 inject_Z) st)
    by (exact (state_after_reachable _ _ H2)).
  exists st. split; [exact Hreach|].
  exact (nodes_come_from_input Hreach).
Defined.

Lemma rounds_and_covered_rows_witness :
  exists st : State Q,
    reachable (line3 inject_Z) st
    /\ round st = Z.of_nat (length (transmissionPath st))
    /\ length (transmitting st) + length (nontransmitting st)
       = S (length (transmissionPath st)).
Proof.
  assert (H2 : exists st, state_after 2 (line3 inject_Z) = Some st)
    by (eexists; vm_compute; reflexivity).
  destruct H2 as (st & H2).
  assert (Hreach : reachable (line3 inject_Z) st)
    by (exact (state_after_reachable _ _ H2)).
  exists st. split; [exact Hreach|].
  exact (rounds_and_covered_rows Hreach).
Defined.

(** ** Exact arithmetic, continued *)

(** X15.  Under exact arithmetic [doubleEquals x1 x2] holds exactly when
    [|x1 - x2| < 1/10000]; it is reflexive and symmetric, but it is not
    transitive, so "being the same node" is not an equivalence. *)
Theorem doubleEquals_exact :
  (forall x y : Q, doubleEquals x y = true <-> (Qabs (x - y) < 1 # 10000)%Q)
  /\ (forall x : Q, doubleEquals x x = true)
  /\ (forall x y : Q, doubleEquals x y = doubleEquals y x)
  /\ (exists x y z : Q, doubleEquals x y = true /\ doubleEquals y z = true
                        /\ doubleEquals x z = false).
Proof.
  assert (Hiff : forall x y : Q,
            doubleEquals x y = true <-> (Qabs (x - y) < 1 # 10000)%Q)
    by (intros x y; unfold doubleEquals; apply Qltb_lt).
  split; [exact Hiff|]. split; [|split].
  - intros x. apply Hiff.
    assert (E : (Qabs (x - x) == 0)%Q)
      by (setoid_replace (x - x)%Q with 0%Q by ring; reflexivity).
    rewrite E. reflexivity.
  - intros x y. unfold doubleEquals.
    change (d_sub x y) with (x - y)%Q. change (d_sub y x) with (y - x)%Q.
    change (d_abs (x - y)%Q) with (Qabs (x - y)).
    change (d_abs (y - x)%Q) with (Qabs (y - x)).
    now rewrite Qabs_Qminus.
  - exists 0%Q, (6 # 100000)%Q, (12 # 100000)%Q.
    repeat split; vm_compute; reflexivity.
Qed.

Lemma same_node_refl_exact (p : Point Q) : same_node p p = true.
Proof.
  pose proof (self_match_exact [p]) as E. cbn [forallb] in E.
  now rewrite andb_true_r in E.
Qed.

Lemma bip_loop_step {num} `{Double num} (st st' : State num) fuel :
  uncovered st <> [] -> bip_round st = Some st' ->
  bip_loop (S fuel) st = bip_loop fuel st'.
Proof.
  intros Hu Hr. cbn [bip_loop]. rewrite Hr.
  destruct (uncovered st); [congruence | reflexivity].
Qed.

Lemma bip_loop_done {num} `{Double num} (st : State num) fuel :
  uncovered st = [] -> bip_loop fuel st = inl st.
Proof. intros Hu. destruct fuel; cbn [bip_loop]; now rewrite Hu. Qed.

(** X16.  Under exact arithmetic, on any two nodes the loop runs one round:
    the source ends up as the only transmitting node, the other node is
    covered without transmitting, and the total cost is the squared
    distance between the two. *)
Theorem two_nodes_exact (s u : Point Q) (fuel : nat) :
  1 <= fuel ->
  exists st,
    bip fuel [s; u] = inl st
    /\ round st = 1%Z
    /\ map (@tx_point Q) (transmitting st) = [s]
    /\ nontransmitting st = [u]
    /\ uncovered st = []
    /\ (totalBroadcastCost (transmitting st)
        == dist2 (fst s) (snd s) (fst u) (snd u))%Q.
Proof.
  intros Hfuel. destruct fuel as [|fuel]; [lia|].
  destruct s as [sx sy], u as [ux uy].
  pose (st0 := mkState [mkTx sx sy (@d_zero Q _)] [] [(ux, uy)] [] 0%Z []).
  pose (sel := cand_tx (mkTx sx sy (@d_zero Q _)) (ux, uy)).
  assert (Hround : bip_round st0
                   = Some (mkState [mkTx sx sy (d_add d_zero (c_cost sel))]
                             [(ux, uy)] [] [sel_row sel] 1%Z
                             (report_round 1%Z
                                [mkTx sx sy (d_add d_zero (c_cost sel))] []))).
  { rewrite bip_round_eq.
    assert (Hsel : selected st0 = Some sel) by reflexivity.
    rewrite Hsel. cbn zeta. unfold st0.
    cbn [transmitting nontransmitting uncovered transmissionPath round stdout
         erase_skip erase_count repeat app].
    assert (Hs : same_node (tx_point (mkTx sx sy (@d_zero Q _))) (c_source sel)
                 = true) by apply (same_node_refl_exact (sx, sy)).
    assert (Hu : from_target sel (ux, uy) = true)
      by apply (same_node_refl_exact (ux, uy)).
    unfold update_transmitting. cbn [map]. rewrite Hs, Hu.
    reflexivity. }
  eexists. split.
  { unfold bip. rewrite bip_init_cons. cbn [fst snd]. fold st0.
    rewrite (bip_loop_step st0 fuel (st' := _)) by (discriminate || exact Hround).
    apply bip_loop_done. reflexivity. }
  cbn [round transmitting nontransmitting uncovered map tx_point tx_x tx_y].
  repeat split.
  unfold totalBroadcastCost, dist2, sel. simpl. ring.
Qed.

Lemma two_nodes_exact_witness :
  1 <= 1
  /\ exists st, bip 1 [(0, 0); (3, 4)]%Q = inl st
       /\ (totalBroadcastCost (transmitting st) == 25)%Q.
Proof.
  assert (Hf : 1 <= 1) by lia.
  split; [exact Hf|].
  destruct (two_nodes_exact (0, 0)%Q (3, 4)%Q Hf) as (st & Hb & _ & _ & _ & _ & Ht).
  exists st. split; [exact Hb|]. rewrite Ht. reflexivity.
Defined.

(** X17.  Under exact arithmetic, when the winning candidate of a round
    starts from the transmitting row [t] and reaches [u], the round leaves
    [t], at its position and with its coordinates, at a power equal to the
    squared distance from [t] to [u]. *)
Theorem grown_power_exact (st st' : State Q) (t : TxRow Q) (u : Point Q) i :
  bip_round st = Some st' ->
  selected st = Some (cand_tx t u) ->
  nth_error (transmitting st) i = Some t ->
  exists t',
    nth_error (transmitting st') i = Some t'
    /\ tx_point t' = tx_point t
    /\ (tx_power t' == dist2 (tx_x t) (tx_y t) (fst u) (snd u))%Q.
Proof.
  rewrite bip_round_eq. intros Hr Hsel Hi. rewrite Hsel in Hr.
  injection Hr as <-. cbn [transmitting].
  assert (Hlen : i < length (transmitting st))
    by (apply nth_error_Some; congruence).
  rewrite nth_error_app1
    by (unfold update_transmitting; now rewrite length_map).
  unfold update_transmitting. rewrite nth_error_map, Hi. cbn [option_map].
  assert (Hs : same_node (tx_point t) (c_source (cand_tx t u)) = true)
    by apply (same_node_refl_exact (tx_point t)).
  rewrite Hs. eexists. split; [reflexivity|]. split; [reflexivity|].
  unfold dist2. simpl. ring.
Qed.

Lemma grown_power_exact_witness :
  exists st',
    bip_round line3_seeded = Some st'
    /\ selected line3_seeded = Some (cand_tx (mkTx 0 0 0)%Q (1, 0)%Q)
    /\ nth_error (transmitting line3_seeded) 0 = Some (mkTx 0 0 0)%Q
    /\ exists t', nth_error (transmitting st') 0 = Some t'
         /\ (tx_power t' == dist2 0 0 1 0)%Q.
Proof.
  assert (Hr : exists st', bip_round line3_seeded = Some st')
    by (eexists; vm_compute; reflexivity).
  destruct Hr as (st' & Hr).
  assert (Hsel : selected line3_seeded = Some (cand_tx (mkTx 0 0 0)%Q (1, 0)%Q))
    by (vm_compute; reflexivity).
  assert (Hn : nth_error (transmitting line3_seeded) 0 = Some (mkTx 0 0 0)%Q)
    by reflexivity.
  exists st'. split; [exact Hr|]. split; [exact Hsel|]. split; [exact Hn|].
  destruct (grown_power_exact (t := (mkTx 0 0 0)%Q) (u := (1, 0)%Q)
              line3_seeded 0 Hr Hsel Hn)
    as (t' & Ht' & _ & Hp).
  exists t'. split; [exact Ht' | exact Hp].
Defined.

Lemma total_nonneg (l : list (TxRow Q)) :
  (forall t, In t l -> (0 <= tx_power t)%Q) -> (0 <= totalBroadcastCost l)%Q.
Proof.
  induction l as [|t l IH]; intros Hl.
  - rewrite total_nil. apply Qle_refl.
  - rewrite total_cons.
    assert (0 <= tx_power t)%Q by (apply Hl; simpl; auto).
    assert (0 <= totalBroadcastCost l)%Q by (apply IH; intros; apply Hl; simpl; auto).
    lra.
Qed.

Lemma reachable_increments (locations : list (Point Q)) st :
  reachable locations st ->
  forall e, In e (transmissionPath st) -> (0 <= tx_power e)%Q.
Proof.
  induction 1 as [st Hi|st st' Hreach IH _ Hr].
  - destruct locations as [|src rest]; [discriminate|].
    rewrite bip_init_cons in Hi. injection Hi as <-. intros e [].
  - pose proof (reachable_paid Hreach) as Hpaid.
    rewrite bip_round_eq in Hr.
    destruct (selected st) as [sel|] eqn:Hsel; [|discriminate].
    injection Hr as <-. cbn [transmissionPath].
    intros e He. apply in_app_iff in He. destruct He as [He|[<-|[]]]; auto.
    exact (selected_cost_nonneg Hpaid Hsel).
Qed.

(** X18.  Under exact arithmetic, in every state of a run no uncovered
    node lies strictly inside the range a transmitting node has paid for:
    the power of every transmitting node is at most its squared distance
    to every uncovered node. *)
Theorem uncovered_outside_paid_range (locations : list (Point Q)) st t u :
  reachable locations st ->
  In t (transmitting st) -> In u (uncovered st) ->
  (tx_power t <= dist2 (tx_x t) (tx_y t) (fst u) (snd u))%Q.
Proof.
  intros Hreach Ht Hu. apply (reachable_paid Hreach); assumption.
Qed.

(** X19.  Under exact arithmetic, in every state of a run every
    transmitting power and every logged increment is non-negative, and so
    is the total broadcast cost. *)
Theorem costs_nonnegative_exact (locations : list (Point Q)) st :
  reachable locations st ->
  (forall t, In t (transmitting st) -> (0 <= tx_power t)%Q)
  /\ (forall e, In e (transmissionPath st) -> (0 <= tx_power e)%Q)
  /\ (0 <= totalBroadcastCost (transmitting st))%Q.
Proof.
  intros Hreach.
  assert (Hp : forall t, In t (transmitting st) -> (0 <= tx_power t)%Q)
    by (intros t Ht; apply (reachable_paid Hreach); exact Ht).
  split; [exact Hp|]. split.
  - exact (reachable_increments Hreach).
  - now apply total_nonneg.
Qed.

Lemma uncovered_outside_paid_range_witness :
  exists (st : State Q) t u,
    reachable (line3 inject_Z) st
    /\ In t (transmitting st) /\ In u (uncovered st)
    /\ (tx_power t <= dist2 (tx_x t) (tx_y t) (fst u) (snd u))%Q.
Proof.
  assert (H1 : exists st, state_after 1 (line3 inject_Z) = Some st)
    by (eexists; vm_compute; reflexivity).
  destruct H1 as (st & H1).
  pose proof (state_after_reachable _ _ H1) as Hreach.
  vm_compute in H1. injection H1 as <-.
  match type of Hreach with reachable _ ?s => exists s end.
  exists (mkTx 0 0 1)%Q, (2, 0)%Q.
  assert (Ht : In (mkTx 0 0 1)%Q [mkTx 0 0 1]%Q) by (simpl; auto).
  assert (Hu : In (2, 0)%Q [(2, 0)%Q]) by (simpl; auto).
  split; [exact Hreach|]. split; [exact Ht|]. split; [exact Hu|].
  exact (uncovered_outside_paid_range _ _ Hreach Ht Hu).
Defined.

Lemma costs_nonnegative_exact_witness :
  exists st : State Q,
    reachable (line3 inject_Z) st
    /\ (0 <= totalBroadcastCost (transmitting st))%Q.
Proof.
  assert (H2 : exists st, state_after 2 (line3 inject_Z) = Some st)
    by (eexists; vm_compute; reflexivity).
  destruct H2 as (st & H2).
  assert (Hreach : reachable (line3 inject_Z) st)
    by (exact (state_after_reachable _ _ H2)).
  exists st. split; [exact Hreach|].
  exact (proj2 (proj2 (costs_nonnegative_exact Hreach))).
Defined.

(** ** What a round does to [uncovered] and to the output *)

Section Output.
Context {num : Type} `{Double num}.

(** X20.  A round adds no row to [uncovered] and keeps the order of the
    rows it leaves; the node it covers is one of the uncovered rows, and
    when that node passes the tolerance test against itself the round
    removes at least one row. *)
Theorem uncovered_only_shrinks (st st' : State num) :
  bip_round st = Some st' ->
  exists sel,
    selected st = Some sel
    /\ In (c_target sel) (uncovered st)
    /\ (forall u, In u (uncovered st') -> In u (uncovered st))
    /\ length (uncovered st') <= length (uncovered st)
    /\ (same_node (c_target sel) (c_target sel) = true ->
        length (uncovered st') < length (uncovered st)).
Proof.
  rewrite bip_round_eq.
  destruct (selected st) as [sel|] eqn:Hsel; [|discriminate].
  intros [= <-]. cbn [uncovered]. exists sel.
  assert (Hin : In sel (minPowersForAllNodes st))
    by (eapply nth_error_In; exact Hsel).
  assert (Htarget : In (c_target sel) (uncovered st)).
  { destruct (selected_origin st sel Hin)
      as [(t & [ux uy] & _ & Hinu & ->)|(r & [ux uy] & _ & Hinu & ->)];
      exact Hinu. }
  pose proof (erase_skip_length (from_target sel) (uncovered st)) as Hlen.
  split; [reflexivity|]. split; [exact Htarget|]. split; [|split].
  - intros u. apply erase_skip_incl.
  - lia.
  - intros Hself.
    pose proof (erase_count_pos (from_target sel) _ _ Htarget Hself). lia.
Qed.

Lemma lines_printed_app (a b : list (Event num)) :
  lines_printed (a ++ b) = lines_printed a + lines_printed b.
Proof. unfold lines_printed. now rewrite filter_app, length_app. Qed.

Lemma lines_printed_blocks {A} (g : A -> list (Event num)) (l : list A) :
  (forall x, lines_printed (g x) = 1) ->
  lines_printed (flat_map g l) = length l.
Proof.
  intros Hg. induction l as [|x l IH]; [reflexivity|].
  cbn [flat_map length]. now rewrite lines_printed_app, Hg, IH.
Qed.

(** X21.  Every round appends to the output, after what was printed
    before, the header of the round with the new value of the round
    counter, then one line per transmitting row and one line per row that
    is still uncovered, as they are at the end of the round. *)
Theorem round_report (st st' : State num) :
  bip_round st = Some st' ->
  exists body,
    stdout st'
    = stdout st
      ++ [EvStr "At the end of round "; EvInt (round st + 1); EvStr ":"; EvEndl]
      ++ body
    /\ round st' = (round st + 1)%Z
    /\ lines_printed body = length (transmitting st') + length (uncovered st').
Proof.
  rewrite bip_round_eq.
  destruct (selected st) as [sel|]; [|discriminate].
  intros [= <-]. cbn [stdout round transmitting uncovered].
  unfold report_round. eexists. split; [reflexivity|]. split; [reflexivity|].
  rewrite lines_printed_app, !lines_printed_blocks; auto.
Qed.

(** X22.  The final report is four lines (the two headers, the header of
    the path and the total) plus one line per transmitting row and one
    line per path entry. *)
Theorem final_report_lines (st : State num) :
  lines_printed (report_final st)
  = 4 + length (transmitting st) + length (transmissionPath st).
Proof.
  unfold report_final.
  rewrite !lines_printed_app, !lines_printed_blocks; auto.
  rewrite length_combine, length_seq, Nat.min_id.
  unfold lines_printed. cbn. lia.
Qed.

End Output.

Lemma uncovered_only_shrinks_witness :
  exists st',
    bip_round line3_seeded = Some st'
    /\ length (uncovered st') <= length (uncovered line3_seeded).
Proof.
  assert (Hr : exists st', bip_round line3_seeded = Some st')
    by (eexists; vm_compute; reflexivity).
  destruct Hr as (st' & Hr).
  exists st'. split; [exact Hr|].
  destruct (uncovered_only_shrinks line3_seeded Hr) as (sel & _ & _ & _ & Hl & _).
  exact Hl.
Defined.

Lemma round_report_witness :
  exists st',
    bip_round line3_seeded = Some st'
    /\ round st' = (round line3_seeded + 1)%Z.
Proof.
  assert (Hr : exists st', bip_round line3_seeded = Some st')
    by (eexists; vm_compute; reflexivity).
  destruct Hr as (st' & Hr).
  exists st'. split; [exact Hr|].
  destruct (round_report line3_seeded Hr) as (body & _ & Hround & _).
  exact Hround.
Defined.

(** X23.  In every state of a run, a round prices one candidate for each
    pair of a covered row and an uncovered row: the candidate vector holds
    (rounds played + 1) times [uncovered.size ()] rows. *)
Theorem candidates_priced {num} `{Double num}
    (locations : list (Point num)) (st : State num) :
  reachable locations st ->
  length (minPowersForAllNodes st)
  = (length (transmitting st) + length (nontransmitting st))
    * length (uncovered st)
  /\ length (minPowersForAllNodes st)
     = S (length (transmissionPath st)) * length (uncovered st).
Proof.
  intros Hreach.
  assert (E : length (minPowersForAllNodes st)
              = (length (transmitting st) + length (nontransmitting st))
                * length (uncovered st)).
  { rewrite minPowersForAllNodes_eq. unfold tx_pool, relay_pool.
    rewrite length_app, !length_flat_map_map. lia. }
  split; [exact E|].
  destruct (reachable_tally Hreach) as [_ Hc]. now rewrite E, Hc.
Qed.

Lemma candidates_priced_witness :
  exists st : State Q,
    reachable (line3 inject_Z) st
    /\ length (minPowersForAllNodes st)
       = S (length (transmissionPath st)) * length (uncovered st).
Proof.
  assert (H1 : exists st, state_after 1 (line3 inject_Z) = Some st)
    by (eexists; vm_compute; reflexivity).
  destruct H1 as (st & H1).
  assert (Hreach : reachable (line3 inject_Z) st)
    by (exact (state_after_reachable _ _ H1)).
  exists st. split; [exact Hreach|].
  exact (proj2 (candidates_priced Hreach)).
Defined.

(** ** Selection under exact arithmetic *)

(** X24.  Under exact arithmetic every round entered with an uncovered
    node selects the candidate at position [indexMin]: its cost is the
    least over both pools, every candidate enumerated before it is
    strictly more expensive, and the
    enumeration puts the transmitting candidates first (origin by origin,
    each against the uncovered nodes in stored order) and the relay
    candidates after them, laid out the same way.  That candidate is the
    one the round logs and covers. *)
Theorem selection_is_first_minimum_exact (st : State Q) :
  transmitting st <> [] -> uncovered st <> [] ->
  exists st' k sel,
    bip_round st = Some st'
    /\ k = indexMin (minPowersForAllNodes st)
    /\ nth_error (minPowersForAllNodes st) k = Some sel
    /\ (forall j c, nth_error (minPowersForAllNodes st) j = Some c ->
          (c_cost sel <= c_cost c)%Q)
    /\ (forall j c, j < k -> nth_error (minPowersForAllNodes st) j = Some c ->
          (c_cost sel < c_cost c)%Q)
    /\ (forall i j t u,
          nth_error (transmitting st) i = Some t ->
          nth_error (uncovered st) j = Some u ->
          nth_error (minPowersForAllNodes st) (i * length (uncovered st) + j)
          = Some (cand_tx t u))
    /\ (forall i j r u,
          nth_error (nontransmitting st) i = Some r ->
          nth_error (uncovered st) j = Some u ->
          nth_error (minPowersForAllNodes st)
            (length (transmitting st) * length (uncovered st)
             + (i * length (uncovered st) + j))
          = Some (cand_relay r u))
    /\ transmissionPath st' = transmissionPath st ++ [sel_row sel]
    /\ exists covered, nontransmitting st' = covered ++ [c_target sel].
Proof.
  intros Ht Hu.
  destruct (bip_round_some st Ht Hu) as (sel & Hsel & Hin).
  rewrite bip_round_eq, Hsel. cbn zeta.
  eexists _, (indexMin (minPowersForAllNodes st)), sel.
  split; [reflexivity|]. split; [reflexivity|]. split; [exact Hsel|].
  assert (Hne : map (@c_cost Q) (minPowersForAllNodes st) <> [])
    by (destruct (minPowersForAllNodes st); [destruct Hin | discriminate]).
  destruct (min_element_index_first Hne) as (vk & Hk & Hle & Hlt).
  rewrite <- indexMin_eq in Hk, Hlt. unfold selected in Hsel.
  rewrite nth_error_map, Hsel in Hk. injection Hk as <-.
  destruct (enumeration_order st) as [Htx Hrelay].
  repeat split; auto.
  - intros j c Hj. apply (Hle j). now rewrite nth_error_map, Hj.
  - intros j c Hjk Hj. apply (Hlt j); auto. now rewrite nth_error_map, Hj.
  - simpl. eauto.
Qed.

Lemma selection_is_first_minimum_exact_witness :
  exists st : State Q,
    bip_init (line3 inject_Z) = Some st
    /\ transmitting st <> [] /\ uncovered st <> []
    /\ exists st' k sel,
         bip_round st = Some st'
         /\ nth_error (minPowersForAllNodes st) k = Some sel
         /\ transmissionPath st' = transmissionPath st ++ [sel_row sel].
Proof.
  assert (Hi : exists st, bip_init (line3 inject_Z) = Some st)
    by (eexists; vm_compute; reflexivity).
  destruct Hi as (st & Hi).
  assert (Ht : transmitting st <> [])
    by (vm_compute in Hi; injection Hi as <-; discriminate).
  assert (Hu : uncovered st <> [])
    by (vm_compute in Hi; injection Hi as <-; discriminate).
  exists st. split; [exact Hi|]. split; [exact Ht|]. split; [exact Hu|].
  destruct (selection_is_first_minimum_exact st Ht Hu)
    as (st' & k & sel & Hr & _ & Hsel & _ & _ & _ & _ & Hp & _).
  exists st', k, sel. split; [exact Hr|]. split; [exact Hsel | exact Hp].
Defined.
